(** * Line-art edge extraction, dominant colours and pencil matching

    A shallow embedding of the numerical core of the colouring-book
    application:

    - [EdgeMap]    : utils/edgeMap.ts   (NMS thresholds, hysteresis, seal, paint)
    - [Palette]    : utils/palette.ts   (sampling, k-means++, hex de-duplication)
    - [ColorMatch] : utils/colorMatch.ts (Lab, Delta-E 2000, nearestFC)
    - [Color]      : services/color.ts  (Lab, Delta-E 76, matchToFaberCastell)

    Conventions.  Typed arrays are lists: a read out of range is [None]
    (JavaScript's [undefined]) and a write out of range is dropped, which is
    what a typed array does.  Gradient magnitudes, pixel channels and cluster
    centres are rationals ([Q]); the perceptual colour maths, which needs
    roots and trigonometry, is over the reals ([R]).  [Math.random] is an
    explicit stream of draws, and a [while] loop takes fuel. *)

From Stdlib Require Import ZArith QArith Qround Qminmax Qabs Reals Lra Lia.
From Stdlib Require Import String Ascii List Sorted.
From Stdlib Require Lqa.
From stdpp Require Import base list numbers.

Local Open Scope Z_scope.

(** ** Shared JavaScript idioms *)

(** [a[i]] on an array: [undefined] outside [0 .. length-1]. *)
Definition rd {A} (a : list A) (i : Z) : option A :=
  if i <? 0 then None else a !! Z.to_nat i.

(** [a[i] = v] on a typed array: ignored outside [0 .. length-1]. *)
Definition wr {A} (a : list A) (i : Z) (v : A) : list A :=
  if i <? 0 then a else <[Z.to_nat i := v]> a.

(** [Array.prototype.sort(cmp)] is stable; [gt x y] stands for [cmp(x,y) > 0].
    An element is moved behind exactly those that compare strictly smaller. *)
Fixpoint sort_insert {A} (gt : A -> A -> bool) (x : A) (l : list A) : list A :=
  match l with
  | [] => [x]
  | y :: l' => if gt x y then y :: sort_insert gt x l' else x :: y :: l'
  end.

Definition js_sort {A} (gt : A -> A -> bool) (l : list A) : list A :=
  foldr (sort_insert gt) [] l.

(** [a.slice(0, n)] for an integer [n]: a negative [n] counts from the end. *)
Definition slice0 {A} (n : Z) (l : list A) : list A :=
  if n <? 0 then take (Z.to_nat (Z.of_nat (length l) + n)) l
  else take (Z.to_nat n) l.

Definition Qlt_bool (a b : Q) : bool := negb (Qle_bool b a).

(** ** utils/edgeMap.ts *)
Module EdgeMap.

(** [v >= t] where [t] may be [undefined] (the comparison is then false). *)
Definition geq (v : Q) (t : option Q) : bool :=
  match t with Some t => Qle_bool t v | None => false end.

(** The three edge states stored in the [Uint8Array]: 0=bg, 1=weak, 2=strong. *)
Definition bg : Z := 0.
Definition weak : Z := 1.
Definition strong : Z := 2.

(** All pixels [(y, x)] of a [w] x [h] buffer in scan order. *)
Definition grid (w h : Z) : list (Z * Z) :=
  y ← seqZ 0 h; x ← seqZ 0 w; [(y, x)].

(** Rows [1 .. h-2] and columns [1 .. w-2] in scan order, as [(y, x)]. *)
Definition interior (w h : Z) : list (Z * Z) :=
  y ← seqZ 1 (h - 2); x ← seqZ 1 (w - 2); [(y, x)].

(** The 3x3 window offsets [(yy, xx)] in loop order. *)
Definition window : list (Z * Z) :=
  yy ← [-1; 0; 1]; xx ← [-1; 0; 1]; [(yy, xx)].

(** The eight neighbours: the window without [(0, 0)]. *)
Definition ring : list (Z * Z) :=
  filter (fun o => negb ((o.1 =? 0) && (o.2 =? 0))) window.

(** [v | 0] on a number: truncate, then wrap to 32 bits. *)
Definition toInt32 (q : Q) : Z :=
  (Z.quot (Qnum q) (Zpos (Qden q)) + 2 ^ 31) mod 2 ^ 32 - 2 ^ 31.

(** Storing an integer into a [Uint8ClampedArray]. *)
Definition clamp8 (z : Z) : Z := Z.max 0 (Z.min 255 z).

Definition Qsum (l : list Q) : Q := foldl Qplus 0%Q l.

Fixpoint toGrayscale (img : list Z) : list Z :=
  match img with
  | r :: gg :: b :: _ :: rest =>
      clamp8 (toInt32 (0.2126 * inject_Z r + 0.7152 * inject_Z gg + 0.0722 * inject_Z b))
        :: toGrayscale rest
  | _ => []
  end.

Section Stages.

(** The platform's [Math.exp], [Math.hypot], [Math.atan2], and the angle in
    degrees [Math.abs((a * 180) / Math.PI)] of [nonMaxSuppression]. *)
Variable exp : Q -> Q.
Variable hypot atan2 : Q -> Q -> Q.
Variable absDeg : Q -> Q.

Definition range (sigmaR d : Q) : Q := exp (- (d * d) / (2 * sigmaR * sigmaR))%Q.

Definition clampTo (lo hi v : Z) : Z := Z.min hi (Z.max lo v).

(** One pixel of [bilateral3]; a read of [undefined] makes the average NaN,
    and [NaN | 0] is 0. *)
Definition bilateralAt (gray : list Z) (w h : Z) (sigmaR : Q)
    (out : list Z) (p : Z * Z) : list Z :=
  let i := p.1 * w + p.2 in
  let nb := mapM (fun o => rd gray (clampTo 0 (h - 1) (p.1 + o.1) * w
                                    + clampTo 0 (w - 1) (p.2 + o.2))) window in
  match rd gray i, nb with
  | Some c, Some vs =>
      let wts := map (fun v => range sigmaR (inject_Z v - inject_Z c)) vs in
      let ws := Qsum wts in
      let acc := Qsum (zip_with (fun wt v => wt * inject_Z v)%Q wts vs) in
      wr out i (clamp8 (toInt32 (acc / (if Qeq_bool ws 0 then 1 else ws))))
  | _, _ => wr out i 0
  end.

Definition bilateral3 (gray : list Z) (w h : Z) (sigmaR : Q) : list Z :=
  foldl (bilateralAt gray w h sigmaR) (map (fun _ => 0) gray) (grid w h).

Definition gxK : list Q := [-1; 0; 1; -2; 0; 2; -1; 0; 1]%Q.
Definition gyK : list Q := [-1; -2; -1; 0; 0; 0; 1; 2; 1]%Q.

Definition dot (k v : list Q) : Q := Qsum (zip_with Qmult k v).

(** One interior pixel of [sobel]; [None] when a read falls outside [src]
    (the gradient would be NaN, which the buffers of this model do not hold). *)
Definition sobelAt (src : list Z) (w : Z) (st : option (list Q * list Q))
    (p : Z * Z) : option (list Q * list Q) :=
  st ← st;
  vs ← mapM (fun o => rd src ((p.1 + o.1) * w + (p.2 + o.2))) window;
  let gx := dot gxK (map inject_Z vs) in
  let gy := dot gyK (map inject_Z vs) in
  let i := p.1 * w + p.2 in
  Some (wr st.1 i (hypot gx gy), wr st.2 i (atan2 gy gx)).

Definition zeros (w h : Z) : list Q := replicate (Z.to_nat (w * h)) 0%Q.

Definition sobel (src : list Z) (w h : Z) : option (list Q * list Q) :=
  foldl (sobelAt src w) (Some (zeros w h, zeros w h)) (interior w h).

(** [a <= t] and [a > t] where [a] may be NaN. *)
Definition leN (a : option Q) (t : Q) : bool :=
  match a with Some a => Qle_bool a t | None => false end.
Definition gtN (a : option Q) (t : Q) : bool :=
  match a with Some a => Qlt_bool t a | None => false end.

(** [m >= q] where either side may be [undefined]. *)
Definition geU (m q : option Q) : bool :=
  match m, q with Some m, Some q => Qle_bool q m | _, _ => false end.

Definition nmsAt (mag ang : list Q) (w : Z) (out : list Q) (p : Z * Z) : list Q :=
  let i := p.1 * w + p.2 in
  let theta := absDeg <$> rd ang i in
  let qr :=
    if leN theta 22.5 || gtN theta 157.5 then (rd mag (i + 1), rd mag (i - 1))
    else if leN theta 67.5 then (rd mag (i + w + 1), rd mag (i - w - 1))
    else if leN theta 112.5 then (rd mag (i + w), rd mag (i - w))
    else (rd mag (i - w + 1), rd mag (i + w - 1)) in
  match rd mag i with
  | Some m => wr out i (if geU (Some m) qr.1 && geU (Some m) qr.2 then m else 0%Q)
  | None => wr out i 0%Q
  end.

Definition nonMaxSuppression (mag ang : list Q) (w h : Z) : list Q :=
  foldl (nmsAt mag ang w) (map (fun _ => 0%Q) mag) (interior w h).

Definition percentileThresholds (nms : list Q) (hiPct loPct : Q)
  : option Q * option Q :=
  let vals := js_sort (fun a b => Qlt_bool 0 (a - b))
                      (filter (fun v => Qlt_bool 0 v) nms) in
  let n := Z.of_nat (length vals) in
  if n =? 0 then (Some 0%Q, Some 0%Q)
  else (rd vals (Qfloor (inject_Z n * hiPct)),
        rd vals (Qfloor (inject_Z n * loPct))).

(** First loop of [hysteresis]: the initial class of one magnitude. *)
Definition classify (high low : option Q) (v : Q) : Z :=
  if geq v high then strong else if geq v low then weak else bg.

Definition is_strong (o : option Z) : bool :=
  match o with Some v => v =? strong | None => false end.

(** The inner [yy]/[xx] loops: is some neighbour of [(x, y)] strong? *)
Definition strongNear (out : list Z) (w y x : Z) : bool :=
  existsb (fun o => is_strong (rd out ((y + o.1) * w + (x + o.2)))) ring.

(** Body of the scan at one interior pixel; the flag is [changed]. *)
Definition visit (w : Z) (st : list Z * bool) (p : Z * Z) : list Z * bool :=
  let i := p.1 * w + p.2 in
  match rd st.1 i with
  | Some 1 => if strongNear st.1 w p.1 p.2 then (wr st.1 i strong, true) else st
  | _ => st
  end.

(** One iteration of the [while (changed)] loop, starting with
    [changed = false]; promotions are visible to later pixels of the pass. *)
Definition pass (w h : Z) (out : list Z) : list Z * bool :=
  foldl (visit w) (out, false) (interior w h).

Fixpoint link (fuel : nat) (w h : Z) (out : list Z) : option (list Z) :=
  match fuel with
  | O => None
  | S fuel' =>
      let st := pass w h out in
      if st.2 then link fuel' w h st.1 else Some st.1
  end.

(** [hysteresis]: one more pass than there are pixels always suffices
    (see [link_terminates]). *)
Definition hysteresis (nms : list Q) (w h : Z) (high low : option Q)
  : option (list Z) :=
  link (S (length nms)) w h (map (classify high low) nms).

(** [cnt] of [medianSeal]: strong pixels in the 3x3 window of [(x, y)]. *)
Definition countStrong (src : list Z) (w y x : Z) : Z :=
  Z.of_nat (length (filter (fun o => is_strong (rd src ((y + o.1) * w + (x + o.2))))
                           window)).

Definition sealAt (src : list Z) (w : Z) (out : list Z) (p : Z * Z) : list Z :=
  let i := p.1 * w + p.2 in
  if 5 <=? countStrong src w p.1 p.2 then wr out i strong
  else match rd src i with Some v => wr out i v | None => out end.

Definition medianSeal (src : list Z) (w h : Z) : list Z :=
  foldl (sealAt src w) src (interior w h).

(** The paint loop of [toEdgePng]: four bytes per edge state. *)
Definition paint (edges : list Z) : list Z :=
  e ← edges; let v := if e =? strong then 0 else 255 in [v; v; v; 255].

Definition hiPctOf (ui : Q) : Q :=
  Qmax 0.82 (Qmin 0.92 (0.82 + (ui - 30) * 0.005)).

(** [toEdgePng] from the NMS field to the painted working canvas. *)
Definition edgesOf (nms : list Q) (w h : Z) (ui : Q) : option (list Z) :=
  let hiPct := hiPctOf ui in
  let loPct := (hiPct * 0.55)%Q in
  let t := percentileThresholds nms hiPct loPct in
  edges ← hysteresis nms w h t.1 t.2;
  Some (paint (medianSeal edges w h)).

(** [toEdgePng] between the two canvases: from the pixels [id.data] of the
    [workW] x [workH] working canvas to the pixels painted back into it. *)
Definition toEdgePng (data : list Z) (workW workH : Z) (ui : Q) : option (list Z) :=
  let gray := toGrayscale data in
  let den := bilateral3 gray workW workH 18 in
  g ← sobel den workW workH;
  edgesOf (nonMaxSuppression g.1 g.2 workW workH) workW workH ui.

End Stages.

End EdgeMap.

(** ** Strings and hexadecimal numbers *)

Definition ascii_in (lo hi : nat) (c : ascii) : bool :=
  (lo <=? nat_of_ascii c)%nat && (nat_of_ascii c <=? hi)%nat.

(** Value of one hexadecimal digit, in either case. *)
Definition hexVal (c : ascii) : option Z :=
  let n := Z.of_nat (nat_of_ascii c) in
  if ascii_in 48 57 c then Some (n - 48)
  else if ascii_in 97 102 c then Some (n - 87)
  else if ascii_in 65 70 c then Some (n - 55)
  else None.

(** The longest prefix of digits, read in base 16; [None] if it is empty. *)
Fixpoint hexPrefix (s : string) (acc : option Z) : option Z :=
  match s with
  | String c s' =>
      match hexVal c with
      | Some d => hexPrefix s' (Some (16 * default 0 acc + d))
      | None => acc
      end
  | EmptyString => acc
  end.

Definition isSpace (c : ascii) : bool :=
  ascii_in 9 13 c || (nat_of_ascii c =? 32)%nat.

Fixpoint trimStart (s : string) : string :=
  match s with
  | String c s' => if isSpace c then trimStart s' else s
  | EmptyString => s
  end.

(** [parseInt(s, 16)]: leading blanks, a sign, an optional [0x], then digits
    as far as they go; [None] is NaN. *)
Definition parseInt16 (s : string) : option Z :=
  let s1 := trimStart s in
  let '(sign, s2) :=
    match s1 with
    | String "-"%char r => (-1, r)
    | String "+"%char r => (1, r)
    | _ => (1, s1)
    end in
  let s3 :=
    match s2 with
    | String "0"%char (String "x"%char r) => r
    | String "0"%char (String "X"%char r) => r
    | _ => s2
    end in
  Z.mul sign <$> hexPrefix s3 None.

(** [s.replace("#", "")]: the first [#] is dropped. *)
Fixpoint dropHash (s : string) : string :=
  match s with
  | String c s' => if Ascii.eqb c "#"%char then s' else String c (dropHash s')
  | EmptyString => s
  end.

(** [s.split("").map(c => c + c).join("")] *)
Fixpoint doubleChars (s : string) : string :=
  match s with
  | String c s' => String c (String c (doubleChars s'))
  | EmptyString => s
  end.

(** [s.slice(a, b)] for [0 <= a <= b]. *)
Definition sliceStr (a b : nat) (s : string) : string := substring a (b - a) s.

Definition upperChar (c : ascii) : ascii :=
  if ascii_in 97 122 c then ascii_of_nat (nat_of_ascii c - 32) else c.

Fixpoint toUpperCase (s : string) : string :=
  match s with
  | String c s' => String (upperChar c) (toUpperCase s')
  | EmptyString => s
  end.

Definition digitChar (d : Z) : ascii :=
  if d <? 10 then ascii_of_nat (Z.to_nat (48 + d)) else ascii_of_nat (Z.to_nat (87 + d)).

(** [n.toString(16)] for [0 <= n < 256], the values [clamp] lets through. *)
Definition toString16 (n : Z) : string :=
  if n <? 16 then String (digitChar n) EmptyString
  else String (digitChar (n / 16)) (String (digitChar (n mod 16)) EmptyString).

(** [s.padStart(2, "0")] *)
Definition padStart2 (s : string) : string :=
  match s with
  | String c EmptyString => String "0"%char s
  | EmptyString => "00"%string
  | _ => s
  end.

(** ** Runs of code that loops or draws random numbers *)

(** [Spin]: the fuel ran out inside a [while] loop.  [Fault]: a division by
    zero, or arithmetic on [undefined]: the run would continue on NaN or
    Infinity. *)
Inductive outcome (A : Type) : Type :=
  | Done (a : A)
  | Spin
  | Fault.
Arguments Done {A} a.
Arguments Spin {A}.
Arguments Fault {A}.

Definition obind {A B} (m : outcome A) (f : A -> outcome B) : outcome B :=
  match m with Done a => f a | Spin => Spin | Fault => Fault end.

#[global] Instance outcome_bind : MBind outcome := fun A B f m => obind m f.

(** [a / b], flagged when [b] is zero. *)
Definition qdiv (a b : Q) : outcome Q :=
  if Qeq_bool b 0 then Fault else Done (a / b)%Q.

Fixpoint ozip {A B C} (f : A -> B -> outcome C) (l : list A) (m : list B)
  : outcome (list C) :=
  match l, m with
  | a :: l', b :: m' => c ← f a b; r ← ozip f l' m'; Done (c :: r)
  | _, _ => Done []
  end.

(** The successive results of [Math.random()], each in [0, 1). *)
Definition draws : Type := nat -> Q.
Definition unit_draws (rnd : draws) : Prop := forall n, (0 <= rnd n /\ rnd n < 1)%Q.

(** ** utils/palette.ts, dominant colours *)
Module Palette.

Record RGB := mkRGB { r : Q; g : Q; b : Q }.
Record Center := mkCenter { rgb : RGB; weight : Q }.

Definition clamp (n lo hi : Z) : Z := Z.max lo (Z.min hi n).

(** [Math.round(v)] *)
Definition round (v : Q) : Z := Qfloor (v + (1 # 2)).

Definition rgbToHex (c : RGB) : string :=
  String "#"%char (toUpperCase (String.concat ""%string
    (map (fun v => padStart2 (toString16 (clamp (round v) 0 255))) [r c; g c; b c]))).

Definition hexToRgb (hex : string) : option Z * option Z * option Z :=
  let h := dropHash hex in
  let s := if (String.length h =? 3)%nat then doubleChars h else h in
  (parseInt16 (sliceStr 0 2 s), parseInt16 (sliceStr 2 4 s), parseInt16 (sliceStr 4 6 s)).

(** A NaN channel makes the sum NaN, and [NaN > tol * tol] is false. *)
Definition similarHex (a b : string) (tol : Z) : bool :=
  match hexToRgb a, hexToRgb b with
  | (Some r1, Some g1, Some b1), (Some r2, Some g2, Some b2) =>
      let dr := r1 - r2 in
      let dg := g1 - g2 in
      let db := b1 - b2 in
      dr * dr + dg * dg + db * db >? tol * tol
  | _, _ => false
  end.

(** [arr.findIndex(p)] *)
Fixpoint findIndex {A} (p : A -> bool) (arr : list A) : Z :=
  match arr with
  | [] => -1
  | x :: arr' =>
      if p x then 0
      else let i := findIndex p arr' in if i =? -1 then -1 else i + 1
  end.

Definition indexed {A} (arr : list A) : list (Z * A) :=
  imap (fun i x => (Z.of_nat i, x)) arr.

(** [arr.filter((hex, idx, arr) => idx === arr.findIndex(h => similarHex(hex, h, 8)))] *)
Definition dedupe (arr : list string) : list string :=
  (filter (fun p => p.1 =? findIndex (fun h => similarHex p.2 h 8) arr) (indexed arr)).*2.

(** One pixel of [samplePixels]: its three channels, each possibly
    [undefined]; [None] when the pixel is skipped for [a < 8]. *)
Definition sampleAt (raw : list Z) (w : Z) (p : Z * Z)
  : option (option Z * option Z * option Z) :=
  let i := (p.1 * w + p.2) * 4 in
  match rd raw (i + 3) with
  | Some a => if a <? 8 then None else Some (rd raw i, rd raw (i + 1), rd raw (i + 2))
  | None => Some (rd raw i, rd raw (i + 1), rd raw (i + 2))
  end.

(** [samplePixels(raw, w, h, 1)] *)
Definition samplePixels (raw : list Z) (w h : Z) : list (option Z * option Z * option Z) :=
  omap (sampleAt raw w) (EdgeMap.grid w h).

(** The noise filter on three defined channels. *)
Definition keepColor (cr cg cb : Z) : bool :=
  let max := Z.max (Z.max cr cg) cb in
  let min := Z.min (Z.min cr cg) cb in
  let sat := max - min in
  negb ((max >? 245) && (min >? 245)) && negb ((max <? 10) && (min <? 10))
  && ((sat >? 8) || ((max >? 30) && (max <? 230))).

(** The filter on a sample: with an [undefined] channel [max] is NaN and the
    last conjunct is false. *)
Definition keep (s : option Z * option Z * option Z) : option RGB :=
  match s with
  | (Some cr, Some cg, Some cb) =>
      if keepColor cr cg cb then Some (mkRGB (inject_Z cr) (inject_Z cg) (inject_Z cb))
      else None
  | _ => None
  end.

Definition dist2 (p c : RGB) : Q :=
  let dr := (r p - r c)%Q in
  let dg := (g p - g c)%Q in
  let db := (b p - b c)%Q in
  (dr * dr + dg * dg + db * db)%Q.

(** [Math.min(...centers.map(c => dist2(p, c)))]; [None] is [Infinity]. *)
Definition minDist (p : RGB) (centers : list Center) : option Q :=
  foldl (fun m c => match m with
                    | None => Some (dist2 p (rgb c))
                    | Some m => Some (Qmin m (dist2 p (rgb c)))
                    end) None centers.

(** The [for] loop of the seeding: the first point at which [r] has dropped
    to zero or below. *)
Fixpoint pick (rr : Q) (dists : list Q) (points : list RGB) : option RGB :=
  match dists, points with
  | d :: dists', p :: points' =>
      let rr' := (rr - d)%Q in
      if Qle_bool rr' 0 then Some p else pick rr' dists' points'
  | _, _ => None
  end.

(** The [while (centers.length < k)] loop; [n] counts the draws taken. *)
Fixpoint seed (fuel : nat) (rnd : draws) (n : nat) (points : list RGB) (k : Z)
    (centers : list Center) : outcome (list Center) :=
  if Z.of_nat (length centers) <? k then
    match fuel with
    | O => Spin
    | S fuel' =>
        let dists := map (fun p => default 0%Q (minDist p centers)) points in
        let total := EdgeMap.Qsum dists in
        let sum := if Qeq_bool total 0 then 1%Q else total in
        let rr := (rnd n * sum)%Q in
        match pick rr dists points with
        | Some p => seed fuel' rnd (S n) points k (centers ++ [mkCenter p 1])
        | None => seed fuel' rnd (S n) points k centers
        end
    end
  else Done centers.

(** The inner loop over centres: index of the first nearest one. *)
Definition nearest (p : RGB) (centers : list Center) : nat :=
  (foldl (fun (st : nat * option Q * nat) c =>
            let d := dist2 p (rgb c) in
            let closer := match st.1.2 with None => true | Some bd => Qlt_bool d bd end in
            if closer then (st.2, Some d, S st.2) else (st.1.1, st.1.2, S st.2))
         (0%nat, None, 0%nat) centers).1.1.

Record Sums := mkSums { sum_r : Q; sum_g : Q; sum_b : Q; sum_w : Q }.

Definition addPoint (p : RGB) (s : Sums) : Sums :=
  mkSums (sum_r s + r p) (sum_g s + g p) (sum_b s + b p) (sum_w s + 1).

Definition assign (centers : list Center) (sums : list Sums) (p : RGB) : list Sums :=
  alter (addPoint p) (nearest p centers) sums.

(** The update of one centre, guarded by [s.w > 0]. *)
Definition recenter (c : Center) (s : Sums) : outcome Center :=
  if Qlt_bool 0 (sum_w s) then
    cr ← qdiv (sum_r s) (sum_w s);
    cg ← qdiv (sum_g s) (sum_w s);
    cb ← qdiv (sum_b s) (sum_w s);
    Done (mkCenter (mkRGB cr cg cb) (sum_w s))
  else Done c.

Definition lloydStep (points : list RGB) (centers : list Center) : outcome (list Center) :=
  let sums := foldl (assign centers) (map (fun _ => mkSums 0 0 0 0) centers) points in
  ozip recenter centers sums.

Fixpoint lloyd (iters : nat) (points : list RGB) (centers : list Center)
  : outcome (list Center) :=
  match iters with
  | O => Done centers
  | S iters' => c ← lloydStep points centers; lloyd iters' points c
  end.

Definition kmeansPP (fuel : nat) (rnd : draws) (points : list RGB) (k : Z)
  : outcome (list Center) :=
  if (length points =? 0)%nat then Done []
  else
    match rd points (EdgeMap.toInt32 (rnd 0%nat * inject_Z (Z.of_nat (length points)))) with
    | None => Fault
    | Some p0 =>
        centers ← seed fuel rnd 1 points k [mkCenter p0 1];
        lloyd 8 points centers
    end.

Definition byWeight (centers : list Center) : list Center :=
  js_sort (fun x y => Qlt_bool 0 (weight y - weight x)) centers.

(** [getDominantHexes] on the decoded pixels ([readImagePixels] is the
    browser's canvas). *)
Definition getDominantHexes (fuel : nat) (rnd : draws) (pixels : list Z) (w h : Z) (k : Z)
  : outcome (list string) :=
  let samples := samplePixels pixels w h in
  let filtered := omap keep samples in
  let n := Z.of_nat (length filtered) in
  centers ← kmeansPP fuel rnd filtered (Z.min k (Z.max 3 (n / 200)));
  Done (slice0 (Z.max 3 k) (dedupe (map (fun c => rgbToHex (rgb c)) (byWeight centers)))).

End Palette.

(** ** The platform's [Math] functions on real numbers *)
Module JsMath.
Local Open Scope R_scope.

Definition gt0 (x : R) : bool := if Rlt_dec 0 x then true else false.
Definition leb (x y : R) : bool := if Rle_dec x y then true else false.

Definition hypot (x y : R) : R := sqrt (x * x + y * y).

(** [Math.cbrt] *)
Definition cbrt (t : R) : R :=
  if Rlt_dec 0 t then Rpower t (/ 3)
  else if Rlt_dec t 0 then - Rpower (- t) (/ 3) else 0.

(** [Math.pow(x, y)] for a base [x >= 0] and an exponent [y > 0]. *)
Definition pow (x y : R) : R := if Rlt_dec 0 x then Rpower x y else 0.

(** [Math.atan2(y, x)], in [(-PI, PI]]. *)
Definition atan2 (y x : R) : R :=
  if Rlt_dec 0 x then atan (y / x)
  else if Rlt_dec x 0 then
    (if Rle_dec 0 y then atan (y / x) + PI else atan (y / x) - PI)
  else if Rlt_dec 0 y then PI / 2
  else if Rlt_dec y 0 then - (PI / 2) else 0.

End JsMath.

(** ** services/color.ts, matching with Delta-E 76 *)
Module Color.
Import JsMath.
Local Open Scope R_scope.

Record FCPencil := mkFCPencil {
  id : Z;
  name : string;
  hex : string;
  rgb : option (R * R * R);
  sets : option (list string)  (* the keys of [sets] that are [true] *)
}.

Definition startsWithHash (h : string) : bool :=
  match h with String c _ => Ascii.eqb c "#"%char | EmptyString => false end.

Definition normalizeHex (h : string) : string :=
  let t := if startsWithHash h then h else String "#"%char h in
  match t with
  | String _ (String c1 (String c2 (String c3 EmptyString))) =>
      String "#"%char (String c1 (String c1 (String c2 (String c2
        (String c3 (String c3 EmptyString))))))
  | _ => toUpperCase t
  end.

Definition inSet (setSize : string) (p : FCPencil) : bool :=
  match sets p with
  | Some keys => existsb (String.eqb setSize) keys
  | None => false
  end.

(** [FC_ALL] is built when the module loads; here it is an argument. *)
Definition getFCPalette (FC_ALL : list FCPencil) (setSize : option string) : list FCPencil :=
  match setSize with
  | None => FC_ALL
  | Some sz => List.filter (inSet sz) FC_ALL
  end.

(** [None] when a channel is NaN. *)
Definition hexToRgb (hex : string) : option (R * R * R) :=
  let h := sliceStr 1 (String.length (normalizeHex hex)) (normalizeHex hex) in
  cr ← parseInt16 (sliceStr 0 2 h);
  cg ← parseInt16 (sliceStr 2 4 h);
  cb ← parseInt16 (sliceStr 4 6 h);
  Some (IZR cr, IZR cg, IZR cb).

Definition srgbToLinear (c : R) : R :=
  let cs := c / 255 in
  if Rle_dec cs 0.04045 then cs / 12.92 else pow ((cs + 0.055) / 1.055) 2.4.

Definition rgbToXyz (c : R * R * R) : R * R * R :=
  let R_ := srgbToLinear c.1.1 in
  let G_ := srgbToLinear c.1.2 in
  let B_ := srgbToLinear c.2 in
  (R_ * 0.4124564 + G_ * 0.3575761 + B_ * 0.1804375,
   R_ * 0.2126729 + G_ * 0.7151522 + B_ * 0.072175,
   R_ * 0.0193339 + G_ * 0.119192 + B_ * 0.9503041).

Definition f (t : R) : R :=
  if Rlt_dec 0.008856 t then cbrt t else 7.787 * t + 16 / 116.

Definition xyzToLab (c : R * R * R) : R * R * R :=
  let Xn := 0.95047 in
  let Yn := 1.0 in
  let Zn := 1.08883 in
  let fx := f (c.1.1 / Xn) in
  let fy := f (c.1.2 / Yn) in
  let fz := f (c.2 / Zn) in
  (116 * fy - 16, 500 * (fx - fy), 200 * (fy - fz)).

Definition rgbToLab (c : R * R * R) : R * R * R := xyzToLab (rgbToXyz c).

Definition hexToLab (hex : string) : option (R * R * R) := rgbToLab <$> hexToRgb hex.

Definition deltaE76 (x y : R * R * R) : R :=
  let dL := x.1.1 - y.1.1 in
  let da := x.1.2 - y.1.2 in
  let db := x.2 - y.2 in
  sqrt (dL * dL + da * da + db * db).

Record Scored := mkScored { pencil : FCPencil; dE : R }.

(** [palLab.map(...).sort((a, b) => a.dE - b.dE)] *)
Definition ranked (srcLab : R * R * R) (palLab : list (FCPencil * (R * R * R)))
  : list Scored :=
  js_sort (fun x y => gt0 (dE x - dE y))
          (map (fun pl => mkScored pl.1 (deltaE76 srcLab pl.2)) palLab).

Definition clampTopK (topK : option Z) : Z := Z.max 1 (Z.min 5 (default 1%Z topK)).

(** [None] when a hex does not parse: the distances are then NaN, and the
    order [sort] leaves them in is not defined. *)
Definition matchToFaberCastell (FC_ALL : list FCPencil) (sourceHexes : list string)
    (setSize : option string) (topK : option Z)
  : option (list (string * list Scored)) :=
  let palette := getFCPalette FC_ALL setSize in
  let topK := clampTopK topK in
  palLab ← mapM (fun p => lab ← match rgb p with
                                | Some c => Some (rgbToLab c)
                                | None => hexToLab (hex p)
                                end;
                          Some (p, lab)) palette;
  mapM (fun hx => srcLab ← hexToLab hx;
                  Some (normalizeHex hx, slice0 topK (ranked srcLab palLab))) sourceHexes.

End Color.

(** ** utils/colorMatch.ts, matching with Delta-E 2000 *)
Module ColorMatch.
Import JsMath.
Local Open Scope R_scope.

Record Lab := mkLab { L : R; a : R; b : R }.
Record FCLike := mkFCLike { id : Z; name : string; hex : string }.

(** [None] when a channel is NaN. *)
Definition hexToRgb01 (hx : string) : option (R * R * R) :=
  let h := dropHash hx in
  let s := if (String.length h =? 3)%nat then doubleChars h else h in
  cr ← parseInt16 (sliceStr 0 2 s);
  cg ← parseInt16 (sliceStr 2 4 s);
  cb ← parseInt16 (sliceStr 4 6 s);
  Some (IZR cr / 255, IZR cg / 255, IZR cb / 255).

Definition srgbToLin (u : R) : R :=
  if Rle_dec u 0.04045 then u / 12.92 else pow ((u + 0.055) / 1.055) 2.4.

Definition rgbToXyz (c : R * R * R) : R * R * R :=
  let R_ := srgbToLin c.1.1 in
  let G_ := srgbToLin c.1.2 in
  let B_ := srgbToLin c.2 in
  (R_ * 0.4124564 + G_ * 0.3575761 + B_ * 0.1804375,
   R_ * 0.2126729 + G_ * 0.7151522 + B_ * 0.072175,
   R_ * 0.0193339 + G_ * 0.1191920 + B_ * 0.9503041).

Definition labF (t : R) : R :=
  if Rlt_dec 0.008856 t then cbrt t else 7.787 * t + 16 / 116.

Definition hexToLab (hx : string) : option Lab :=
  c ← hexToRgb01 hx;
  let xyz := rgbToXyz c in
  let Xn := 0.95047 in
  let Yn := 1 in
  let Zn := 1.08883 in
  let fx := labF (xyz.1.1 / Xn) in
  let fy := labF (xyz.1.2 / Yn) in
  let fz := labF (xyz.2 / Zn) in
  Some (mkLab (116 * fy - 16) (500 * (fx - fy)) (200 * (fy - fz))).

(** [Math.pow(c, 7) / (Math.pow(c, 7) + Math.pow(25, 7))] *)
Definition ratio7 (c : R) : R := c ^ 7 / (c ^ 7 + 25 ^ 7).

(** The values [deltaE] has computed when it reaches its [return]. *)
Record Terms := mkTerms {
  dLp : R; dCp : R; dHp : R; Sl : R; Sc : R; Sh : R; Rt : R
}.

Definition terms (l1 l2 : Lab) : Terms :=
  let L1 := L l1 in let a1 := a l1 in let b1 := b l1 in
  let L2 := L l2 in let a2 := a l2 in let b2 := b l2 in
  let avgLp := (L1 + L2) / 2 in
  let C1 := hypot a1 b1 in
  let C2 := hypot a2 b2 in
  let avgC := (C1 + C2) / 2 in
  let G := 0.5 * (1 - sqrt (ratio7 avgC)) in
  let a1p := (1 + G) * a1 in
  let a2p := (1 + G) * a2 in
  let C1p := hypot a1p b1 in
  let C2p := hypot a2p b2 in
  let avgCp := (C1p + C2p) / 2 in
  let h1p := atan2 b1 a1p in
  let h2p := atan2 b2 a2p in
  let H1p := if Rle_dec 0 h1p then h1p else h1p + 2 * PI in
  let H2p := if Rle_dec 0 h2p then h2p else h2p + 2 * PI in
  let dLp := L2 - L1 in
  let dCp := C2p - C1p in
  let dhp0 := H2p - H1p in
  let dhp1 := if Rlt_dec PI dhp0 then dhp0 - 2 * PI else dhp0 in
  let dhp := if Rlt_dec dhp1 (- PI) then dhp1 + 2 * PI else dhp1 in
  let dHp := 2 * sqrt (C1p * C2p) * sin (dhp / 2) in
  let avgHp := if Rlt_dec PI (Rabs (H1p - H2p)) then (H1p + H2p + 2 * PI) / 2
               else (H1p + H2p) / 2 in
  let T := 1 - 0.17 * cos (avgHp - PI / 6) + 0.24 * cos (2 * avgHp)
           + 0.32 * cos (3 * avgHp + PI / 30) - 0.20 * cos (4 * avgHp - (63 * PI) / 180) in
  let Sl := 1 + (0.015 * (avgLp - 50) ^ 2) / sqrt (20 + (avgLp - 50) ^ 2) in
  let Sc := 1 + 0.045 * avgCp in
  let Sh := 1 + 0.015 * avgCp * T in
  let dt := (30 * PI) / 180 * exp (- ((avgHp * 180 / PI - 275) / 25) ^ 2) in
  let Rc := 2 * sqrt (ratio7 avgCp) in
  let Rt := - Rc * sin (2 * dt) in
  mkTerms dLp dCp dHp Sl Sc Sh Rt.

(** The argument of the final [Math.sqrt]. *)
Definition radicand (l1 l2 : Lab) : R :=
  let t := terms l1 l2 in
  (dLp t / Sl t) ^ 2 + (dCp t / Sc t) ^ 2 + (dHp t / Sh t) ^ 2
  + Rt t * (dCp t / Sc t) * (dHp t / Sh t).

Definition deltaE (l1 l2 : Lab) : R := sqrt (radicand l1 l2).

Record Match := mkMatch { m_id : Z; m_name : string; m_hex : string; m_deltaE : R }.

(** [libLab.map(...).sort((a, b) => a.deltaE - b.deltaE)] *)
Definition ranked (lab : Lab) (libLab : list (FCLike * Lab)) : list Match :=
  js_sort (fun x y => gt0 (m_deltaE x - m_deltaE y))
          (map (fun pl => mkMatch (id pl.1) (name pl.1) (hex pl.1) (deltaE lab pl.2)) libLab).

(** [None] when a hex does not parse (the distances are then NaN). *)
Definition nearestFC (inputHexes : list string) (lib : list FCLike) (k : Z)
  : option (list (string * list Match)) :=
  libLab ← mapM (fun p => lab ← hexToLab (hex p); Some (p, lab)) lib;
  mapM (fun h => lab ← hexToLab h; Some (h, slice0 k (ranked lab libLab))) inputHexes.

End ColorMatch.

(** * Vocabulary of the statements

    Predicates, measures and sample inputs that the properties below are
    stated with. *)

(** ** Edge pipeline *)
Section EdgeVocabulary.
Import EdgeMap.

(** Number of weak cells: what every changing pass of the loop decreases. *)
Fixpoint weakCount (out : list Z) : nat :=
  match out with
  | [] => 0
  | v :: out' => ((if (v =? weak)%Z then 1 else 0) + weakCount out')%nat
  end.

(** From [out] to [out']: cells only ever move from weak to strong, and only
    at scanned pixels. *)
Definition promotes (w h : Z) (out out' : list Z) : Prop :=
  length out' = length out /\
  forall j, rd out' j = rd out j \/
    (rd out j = Some weak /\ rd out' j = Some strong /\
     exists p, p ∈ interior w h /\ j = p.1 * w + p.2).

(** A full pass over [out] promotes nothing. *)
Definition settled (w h : Z) (out : list Z) : Prop := pass w h out = (out, false).

(** A pixel on the one-pixel border ring of the [w] x [h] buffer. *)
Definition onBorder (w h y x : Z) : Prop :=
  0 <= x < w /\ 0 <= y < h /\ (x = 0 \/ x = w - 1 \/ y = 0 \/ y = h - 1).


(** A field without edges: every magnitude is zero. *)
Definition flat (l : list Q) : Prop := Forall (fun v => v == 0)%Q l.

(** [n] pixels with the same four channels, and their grey level. *)
Definition plain (cr cg cb ca : Z) (n : nat) : list Z :=
  mjoin (replicate n [cr; cg; cb; ca]).

Definition luma (cr cg cb : Z) : Z :=
  clamp8 (toInt32 (0.2126 * inject_Z cr + 0.7152 * inject_Z cg + 0.0722 * inject_Z cb)).

(** A 7x5 gradient field: one strong ridge pixel (9), a weak one beside it
    (7), an isolated weak one (6) and a pixel below the low threshold (5). *)
Definition sample_mag : list Q :=
  [0;0;0;0;0;0;0;
   0;6;0;0;0;9;0;
   0;0;0;0;7;0;0;
   0;5;0;0;0;0;0;
   0;0;0;0;0;0;0]%Q.

Definition sample_ang : list Q := replicate 35 0%Q.

(** Rational stand-ins for the platform functions, exact at the arguments
    the sample inputs meet: the angle 0, [Math.exp(0)], [Math.hypot(0, 0)]. *)
Definition degrees (a : Q) : Q := (Qabs (a * 180) / (355 # 113))%Q.
Definition exp_near_0 (q : Q) : Q := (1 + q)%Q.
Definition taxicab (u v : Q) : Q := (Qabs u + Qabs v)%Q.

Definition sample_nms : list Q := nonMaxSuppression degrees sample_mag sample_ang 7 5.

(** What hysteresis makes of [sample_nms] with thresholds 9 and 6. *)
Definition sample_edges : list Z :=
  [0;0;0;0;0;0;0;
   0;1;0;0;0;2;0;
   0;0;0;0;2;0;0;
   0;0;0;0;0;0;0;
   0;0;0;0;0;0;0].

(** A pixel index that hysteresis should end up strong: a seed (at or above
    the high threshold), or an interior weak pixel with a neighbour of the
    eight that is itself linked. *)
Inductive linked (nms : list Q) (w h : Z) (high low : option Q) : Z -> Prop :=
  | linked_seed j v :
      rd nms j = Some v -> classify high low v = strong -> linked nms w h high low j
  | linked_step y x o v :
      (y, x) ∈ interior w h -> rd nms (y * w + x) = Some v ->
      classify high low v = weak -> o ∈ ring ->
      linked nms w h high low ((y + o.1) * w + (x + o.2)) ->
      linked nms w h high low (y * w + x).

(** What the loop keeps true of its buffer: strong cells are linked and weak
    cells were classified weak. *)
Definition sound (nms : list Q) (w h : Z) (high low : option Q) (out : list Z) : Prop :=
  (forall j, rd out j = Some strong -> linked nms w h high low j) /\
  (forall j, rd out j = Some weak ->
     exists v, rd nms j = Some v /\ classify high low v = weak).

(** The value the seal gives a pixel that holds [v] and whose window holds
    [cnt] strong pixels. *)
Definition sealed (cnt v : Z) : Z := if 5 <=? cnt then strong else v.

(** A buffer in which the upper-left 3x3 block has a strong majority. *)
Definition sample_gap : list Z := [2; 2; 2; 2; 1; 2; 0; 0; 0].

(** The comparator [(a, b) => a - b] of [percentileThresholds]. *)
Definition above (a b : Q) : bool := Qlt_bool 0 (a - b).

(** A state of the [sobel] loops: both buffers have [w * h] cells, and every
    cell that is not an interior pixel still holds 0. *)
Definition sobel_ok (w h : Z) (st : option (list Q * list Q)) : Prop :=
  exists mag ang, st = Some (mag, ang) /\
    length mag = Z.to_nat (w * h) /\ length ang = Z.to_nat (w * h) /\
    forall j, (forall q, q ∈ interior w h -> j <> q.1 * w + q.2) ->
      0 <= j < w * h -> rd mag j = Some 0%Q /\ rd ang j = Some 0%Q.


End EdgeVocabulary.

(** ** Dominant colours *)

(** [n] opaque pixels of one colour. *)
Definition solid (cr cg cb : Z) (n : nat) : list Z :=
  mjoin (replicate n [cr; cg; cb; 255]).

(** Two near-white pixels and a near-black one: all three are filtered out. *)
Definition blank_pixels : list Z := [255; 255; 255; 255; 250; 248; 251; 255; 3; 0; 9; 255].

(** A red, a green and a blue pixel. *)
Definition three_pixels : list Z := [200; 40; 40; 255; 40; 200; 40; 255; 40; 40; 200; 255].

(** Does the byte [n] print as two digits that read back as [n]? *)
Definition twoDigits (n : Z) : bool :=
  match padStart2 (toString16 n) with
  | String c1 (String c2 EmptyString) =>
      match parseInt16 (String (upperChar c1) (String (upperChar c2) EmptyString)) with
      | Some m => m =? n
      | None => false
      end
  | _ => false
  end.

(** A colour inside the sRGB cube. *)
Definition inCube (c : Palette.RGB) : Prop :=
  (0 <= Palette.r c <= 255 /\ 0 <= Palette.g c <= 255 /\ 0 <= Palette.b c <= 255)%Q.

(** Channel sums of [sum_w] colours of the cube. *)
Definition cubeSums (s : Palette.Sums) : Prop :=
  (0 <= Palette.sum_w s /\ 0 <= Palette.sum_r s <= 255 * Palette.sum_w s /\
   0 <= Palette.sum_g s <= 255 * Palette.sum_w s /\
   0 <= Palette.sum_b s <= 255 * Palette.sum_w s)%Q.

Definition goodCenter (c : Palette.Center) : Prop :=
  inCube (Palette.rgb c) /\ (0 < Palette.weight c)%Q.


(** ** Hex strings *)

(** Strings of ASCII characters: on these [toUpperCase] changes the letters
    [a..z] and nothing else. *)
Fixpoint asciiOnly (s : string) : bool :=
  match s with
  | String c s' => (nat_of_ascii c <? 128)%nat && asciiOnly s'
  | EmptyString => true
  end.

(** No [#] anywhere. *)
Fixpoint noHash (s : string) : bool :=
  match s with
  | String c s' => negb (Ascii.eqb c "#"%char) && noHash s'
  | EmptyString => true
  end.

(** The two steps of [parseInt16] before the digits: the sign, and [0x]. *)
Definition signOf (s : string) : Z * string :=
  match s with
  | String "-"%char r => (-1, r)
  | String "+"%char r => (1, r)
  | _ => (1, s)
  end.

Definition skip0x (s : string) : string :=
  match s with
  | String "0"%char (String "x"%char r) => r
  | String "0"%char (String "X"%char r) => r
  | _ => s
  end.

(** ** Ranking by a real-valued key *)

#[local] Instance R_eq_dec : EqDecision R := Req_dec_T.

Section RankingVocabulary.
Context {A : Type} (key : A -> R).

Definition ascending (l : list A) : Prop :=
  StronglySorted (fun x y => (key x <= key y)%R) l.

(** [full] is [scored] sorted by ascending key, ties in the order of [scored]. *)
Definition ranks (scored full : list A) : Prop :=
  full ≡ₚ scored /\ ascending full /\
  forall d, filter (fun e => key e = d) full = filter (fun e => key e = d) scored.

End RankingVocabulary.

(** The palette entry a match of [nearestFC] stands for. *)
Definition entryOf (m : ColorMatch.Match) : ColorMatch.FCLike :=
  ColorMatch.mkFCLike (ColorMatch.m_id m) (ColorMatch.m_name m) (ColorMatch.m_hex m).

(** The Lab colour [matchToFaberCastell] gives a pencil. *)
Definition pencilLab (p : Color.FCPencil) : option (R * R * R) :=
  match Color.rgb p with Some c => Some (Color.rgbToLab c) | None => Color.hexToLab (Color.hex p) end.

(** A [Lab] record as the triple [services/color.ts] works with. *)
Definition labTriple (l : ColorMatch.Lab) : R * R * R :=
  (ColorMatch.L l, ColorMatch.a l, ColorMatch.b l).



(** Seven pencils, and black and white alone. *)
Definition seven_pencils : list ColorMatch.FCLike :=
  [ColorMatch.mkFCLike 101 "White" "#FFFFFF"; ColorMatch.mkFCLike 107 "Cadmium Yellow" "#FFD700";
   ColorMatch.mkFCLike 121 "Pale Geranium Lake" "#E03C31"; ColorMatch.mkFCLike 110 "Phthalo Blue" "#0F4C81";
   ColorMatch.mkFCLike 163 "Emerald Green" "#00A86B"; ColorMatch.mkFCLike 177 "Walnut Brown" "#5C4033";
   ColorMatch.mkFCLike 199 "Black" "#000000"].

Definition two_pencils : list Color.FCPencil :=
  [Color.mkFCPencil 101 "White" "#FFFFFF" None None;
   Color.mkFCPencil 199 "Black" "#000000" (Some (0, 0, 0)%R) None].

(** * Properties *)

(** ** Facts about array reads and writes *)
Section ArrayFacts.
Context {A : Type}.
Implicit Types (a : list A) (i j : Z) (v : A).

Lemma rd_Some_range a i v : rd a i = Some v -> 0 <= i < Z.of_nat (length a).
Proof.
  unfold rd. destruct (Z.ltb_spec i 0); [discriminate |].
  intros H1. apply lookup_lt_Some in H1. lia.
Qed.

Lemma rd_in_range a i : 0 <= i < Z.of_nat (length a) -> is_Some (rd a i).
Proof.
  intros H. unfold rd. destruct (Z.ltb_spec i 0); [lia |].
  apply lookup_lt_is_Some. lia.
Qed.

Lemma length_wr a i v : length (wr a i v) = length a.
Proof. unfold wr. destruct (i <? 0); [done | apply length_insert]. Qed.

Lemma rd_wr_ne a i j v : i <> j -> rd (wr a i v) j = rd a j.
Proof.
  intros Hne. unfold rd, wr.
  destruct (Z.ltb_spec j 0); [done |].
  destruct (Z.ltb_spec i 0); [done |].
  apply list_lookup_insert_ne. lia.
Qed.

Lemma rd_wr_eq a i v : is_Some (rd a i) -> rd (wr a i v) i = Some v.
Proof.
  intros [u Hu]. pose proof (rd_Some_range _ _ _ Hu) as Hr.
  unfold rd, wr. destruct (Z.ltb_spec i 0); [lia |].
  apply list_lookup_insert_eq. lia.
Qed.

Lemma wr_out_of_range a i v : rd a i = None -> wr a i v = a.
Proof.
  unfold rd, wr. destruct (Z.ltb_spec i 0); [done |].
  intros H1. apply list_insert_ge. by apply lookup_ge_None.
Qed.

(** A write changes at most the cell written, and only when it exists. *)
Lemma rd_wr_cases a i j v :
  rd (wr a i v) j = rd a j \/
  (j = i /\ is_Some (rd a i) /\ rd (wr a i v) j = Some v).
Proof.
  destruct (decide (i = j)) as [<- | Hne].
  - destruct (rd a i) eqn:E.
    + right. split; [done |]. split; [by eexists |]. apply rd_wr_eq. rewrite E. by eexists.
    + left. by rewrite wr_out_of_range.
  - left. by apply rd_wr_ne.
Qed.

Lemma rd_map {B} (f : A -> B) a i : rd (map f a) i = f <$> rd a i.
Proof. unfold rd. destruct (i <? 0); [done |]. apply list_lookup_fmap. Qed.

End ArrayFacts.

(** ** The edge pipeline *)
Section EdgeFacts.
Import EdgeMap.

Lemma elem_of_interior w h y x :
  (y, x) ∈ interior w h <-> (1 <= y <= h - 2 /\ 1 <= x <= w - 2).
Proof.
  unfold interior. rewrite list_elem_of_bind. split.
  - intros (y' & Hx & Hy). apply list_elem_of_bind in Hx as (x' & Hx & Hx').
    apply list_elem_of_singleton in Hx. inversion Hx; subst.
    apply elem_of_seqZ in Hy, Hx'. lia.
  - intros [Hy Hx]. exists y. split.
    + apply list_elem_of_bind. exists x. split; [apply list_elem_of_singleton; done |].
      apply elem_of_seqZ. lia.
    + apply elem_of_seqZ. lia.
Qed.

(** Row-major indices of an interior pixel and of a border pixel differ. *)
Lemma index_inj w x y x' y' :
  0 <= x < w -> 0 <= x' < w -> y * w + x = y' * w + x' -> y = y' /\ x = x'.
Proof. intros Hx Hx' E. assert (y = y') by nia. subst. lia. Qed.

Lemma weakCount_le out : (weakCount out <= length out)%nat.
Proof. induction out as [| v out IH]; simpl; [lia |]. destruct (v =? weak); lia. Qed.

Lemma weakCount_promote out n :
  out !! n = Some weak -> (weakCount (<[n := strong]> out) + 1 = weakCount out)%nat.
Proof.
  revert n. induction out as [| v out IH]; intros [| n] H; try discriminate.
  - simpl in H. inversion H; subst. simpl. lia.
  - simpl in H. specialize (IH n H). simpl. lia.
Qed.

Lemma weakCount_wr out i :
  rd out i = Some weak -> (weakCount (wr out i strong) + 1 = weakCount out)%nat.
Proof.
  unfold rd, wr. destruct (i <? 0); [discriminate |]. apply weakCount_promote.
Qed.

(** What one visit can do: nothing, or promote the weak pixel it stands on. *)
Lemma visit_cases w st p :
  visit w st p = st \/
  (rd st.1 (p.1 * w + p.2) = Some weak /\ strongNear st.1 w p.1 p.2 = true /\
   visit w st p = (wr st.1 (p.1 * w + p.2) strong, true)).
Proof.
  unfold visit. destruct (rd st.1 (p.1 * w + p.2)) as [v |] eqn:E; [| by left].
  destruct (decide (v = 1)) as [-> | Hne].
  - destruct (strongNear st.1 w p.1 p.2); [right; done | by left].
  - left. destruct v as [| [ | | ] |]; try done.
Qed.

Lemma scan_measure w l st :
  let st' := foldl (visit w) st l in
  (weakCount st'.1 <= weakCount st.1)%nat /\
  (st'.2 = true -> st.2 = true \/ (weakCount st'.1 < weakCount st.1)%nat).
Proof.
  revert st. induction l as [| p l IH]; intros st; simpl; [auto with lia |].
  destruct (IH (visit w st p)) as [IH1 IH2].
  destruct (visit_cases w st p) as [E | (Hw & _ & E)]; rewrite E in *; [done |].
  simpl in *. pose proof (weakCount_wr _ _ Hw). split; [lia |].
  intros _. right. lia.
Qed.

Lemma link_terminates w h : forall n out,
  (weakCount out < n)%nat -> is_Some (link n w h out).
Proof.
  induction n as [| n IH]; intros out Hn; [lia |]. simpl.
  pose proof (scan_measure w (interior w h) (out, false)) as [H1 H2].
  fold (pass w h out) in H1, H2. simpl in H1, H2.
  destruct (pass w h out) as [out' c] eqn:E. simpl in *.
  destruct c; [| by eexists]. apply IH.
  destruct (H2 eq_refl) as [? | ?]; [done | lia].
Qed.

Lemma scan_flag_sticks w l out : (foldl (visit w) (out, true) l).2 = true.
Proof.
  revert out. induction l as [| p l IH]; intros out; [done |]. simpl.
  destruct (visit_cases w (out, true) p) as [E | (_ & _ & E)]; rewrite E; apply IH.
Qed.

(** A pass that reports no change left the buffer alone, and found no weak
    pixel with a strong neighbour. *)
Lemma scan_quiet w l out :
  (foldl (visit w) (out, false) l).2 = false ->
  (foldl (visit w) (out, false) l).1 = out /\
  Forall (fun p => rd out (p.1 * w + p.2) = Some weak -> strongNear out w p.1 p.2 = false) l.
Proof.
  induction l as [| p l IH]; simpl; [done |].
  destruct (visit_cases w (out, false) p) as [E | (Hw & Hs & E)]; rewrite E.
  - intros Hq. destruct (IH Hq) as [IH1 IH2]. split; [done |].
    constructor; [| done]. intros Hw.
    destruct (strongNear out w p.1 p.2) eqn:Hs; [| done].
    unfold visit in E. simpl in E. rewrite Hw, Hs in E. discriminate.
  - simpl. rewrite scan_flag_sticks. discriminate.
Qed.

(** The converse: where no weak pixel has a strong neighbour, a pass is quiet. *)
Lemma quiet_scan w l out :
  Forall (fun p => rd out (p.1 * w + p.2) = Some weak -> strongNear out w p.1 p.2 = false) l ->
  foldl (visit w) (out, false) l = (out, false).
Proof.
  induction 1 as [| p l Hp _ IH]; simpl; [done |].
  destruct (visit_cases w (out, false) p) as [E | (Hw & Hs & E)]; rewrite E; [done |].
  simpl in *. rewrite (Hp Hw) in Hs. discriminate.
Qed.

Lemma promotes_refl w h out : promotes w h out out.
Proof. split; [done | by left]. Qed.

Lemma promotes_trans w h a b c : promotes w h a b -> promotes w h b c -> promotes w h a c.
Proof.
  intros [L1 H1] [L2 H2]. split; [congruence |]. intros j.
  destruct (H2 j) as [E2 | (E2 & E2' & Hp2)], (H1 j) as [E1 | (E1 & E1' & Hp1)].
  - left. congruence.
  - right. rewrite E2. done.
  - right. rewrite <- E1. done.
  - rewrite E1' in E2. discriminate.
Qed.

Lemma scan_promotes w h l st :
  (forall p, p ∈ l -> p ∈ interior w h) ->
  promotes w h st.1 (foldl (visit w) st l).1.
Proof.
  revert st. induction l as [| p l IH]; intros st Hl; simpl; [apply promotes_refl |].
  eapply promotes_trans; [| apply IH; intros; apply Hl; by right].
  destruct (visit_cases w st p) as [E | (Hw & _ & E)]; rewrite E; [apply promotes_refl |].
  simpl. split; [apply length_wr |]. intros j.
  destruct (rd_wr_cases st.1 (p.1 * w + p.2) j strong) as [? | (-> & _ & ?)]; [by left |].
  right. repeat split; [done | done |]. exists p. split; [apply Hl; by left | done].
Qed.

Lemma pass_promotes w h out : promotes w h out (pass w h out).1.
Proof. apply (scan_promotes w h (interior w h) (out, false)). auto. Qed.

Lemma link_spec w h : forall n out r,
  link n w h out = Some r -> settled w h r /\ promotes w h out r.
Proof.
  induction n as [| n IH]; intros out r; simpl; [discriminate |].
  pose proof (pass_promotes w h out) as Hp.
  destruct (pass w h out) as [out' c] eqn:E. simpl in *. destruct c.
  - intros H. destruct (IH _ _ H) as [H1 H2]. split; [done |].
    eapply promotes_trans; eauto.
  - intros [= <-]. split; [| done].
    pose proof (scan_quiet w (interior w h) out) as Hq. fold (pass w h out) in Hq.
    rewrite E in Hq. simpl in Hq. destruct (Hq eq_refl) as [-> _]. exact E.
Qed.

Lemma settled_no_promotable w h out y x :
  settled w h out -> (y, x) ∈ interior w h ->
  rd out (y * w + x) = Some weak -> strongNear out w y x = false.
Proof.
  intros Hs Hin Hw. pose proof (scan_quiet w (interior w h) out) as Hq.
  fold (pass w h out) in Hq. rewrite Hs in Hq. destruct (Hq eq_refl) as [_ Hall].
  rewrite Forall_forall in Hall. apply (Hall (y, x)); auto.
  by apply list_elem_of_In.
Qed.

(** The loop of [hysteresis] always ends: one pass more than there are
    pixels is enough. *)
Lemma hysteresis_returns nms w h high low : is_Some (hysteresis nms w h high low).
Proof.
  apply link_terminates.
  pose proof (weakCount_le (map (classify high low) nms)) as H.
  rewrite length_map in H. lia.
Qed.

Lemma strongNear_false out w y x :
  strongNear out w y x = false ->
  forall o, o ∈ ring -> rd out ((y + o.1) * w + (x + o.2)) <> Some strong.
Proof.
  unfold strongNear. intros H o Ho Hs.
  assert (existsb (fun o => is_strong (rd out ((y + o.1) * w + (x + o.2)))) ring = true) as E.
  { apply existsb_exists. exists o. split; [by apply list_elem_of_In |]. by rewrite Hs. }
  congruence.
Qed.

(** *** The seal *)

Lemma sealAt_inv src w h out p :
  p ∈ interior w h ->
  (length out = length src /\
   forall j, rd out j = rd src j \/
     (rd out j = Some strong /\ exists q, q ∈ interior w h /\ j = q.1 * w + q.2)) ->
  (length (sealAt src w out p) = length src /\
   forall j, rd (sealAt src w out p) j = rd src j \/
     (rd (sealAt src w out p) j = Some strong /\
      exists q, q ∈ interior w h /\ j = q.1 * w + q.2)).
Proof.
  intros Hp [HL H]. unfold sealAt.
  destruct (5 <=? countStrong src w p.1 p.2).
  - split; [by rewrite length_wr |]. intros j.
    destruct (rd_wr_cases out (p.1 * w + p.2) j strong) as [-> | (-> & _ & ->)]; [apply H |].
    right. split; [done |]. by exists p.
  - destruct (rd src (p.1 * w + p.2)) as [v |] eqn:E; [| done].
    split; [by rewrite length_wr |]. intros j.
    destruct (rd_wr_cases out (p.1 * w + p.2) j v) as [-> | (-> & _ & ->)]; [apply H |].
    by left.
Qed.

Lemma medianSeal_spec src w h :
  length (medianSeal src w h) = length src /\
  forall j, rd (medianSeal src w h) j = rd src j \/
    (rd (medianSeal src w h) j = Some strong /\
     exists q, q ∈ interior w h /\ j = q.1 * w + q.2).
Proof.
  unfold medianSeal.
  assert (forall l out, (forall p, p ∈ l -> p ∈ interior w h) ->
    (length out = length src /\
     forall j, rd out j = rd src j \/
       (rd out j = Some strong /\ exists q, q ∈ interior w h /\ j = q.1 * w + q.2)) ->
    (length (foldl (sealAt src w) out l) = length src /\
     forall j, rd (foldl (sealAt src w) out l) j = rd src j \/
       (rd (foldl (sealAt src w) out l) j = Some strong /\
        exists q, q ∈ interior w h /\ j = q.1 * w + q.2))) as Hfold.
  { induction l as [| p l IH]; intros out Hl Hinv; simpl; [done |].
    apply IH; [intros; apply Hl; by right |].
    apply sealAt_inv; [apply Hl; by left | done]. }
  apply Hfold; [auto |]. split; [done | by left].
Qed.

Lemma border_not_interior w h y x q :
  onBorder w h y x -> q ∈ interior w h -> y * w + x <> q.1 * w + q.2.
Proof.
  intros (Hx & Hy & Hb) Hq E. destruct q as [y' x'].
  apply elem_of_interior in Hq. simpl in E.
  apply index_inj in E; lia.
Qed.

(** *** Non-maximum suppression and the thresholds *)

Lemma nonMaxSuppression_spec absDeg mag ang w h :
  length (nonMaxSuppression absDeg mag ang w h) = length mag /\
  forall j v, rd (nonMaxSuppression absDeg mag ang w h) j = Some v ->
    v = 0%Q \/ (rd mag j = Some v /\ exists q, q ∈ interior w h /\ j = q.1 * w + q.2).
Proof.
  unfold nonMaxSuppression.
  assert (forall l out, (forall p, p ∈ l -> p ∈ interior w h) ->
    (length out = length mag /\
     forall j v, rd out j = Some v ->
       v = 0%Q \/ (rd mag j = Some v /\ exists q, q ∈ interior w h /\ j = q.1 * w + q.2)) ->
    (length (foldl (nmsAt absDeg mag ang w) out l) = length mag /\
     forall j v, rd (foldl (nmsAt absDeg mag ang w) out l) j = Some v ->
       v = 0%Q \/ (rd mag j = Some v /\ exists q, q ∈ interior w h /\ j = q.1 * w + q.2)))
    as Hfold.
  { induction l as [| p l IH]; intros out Hl Hinv; simpl; [done |].
    apply IH; [intros; apply Hl; by right |].
    destruct Hinv as [HL H]. unfold nmsAt.
    destruct (rd mag (p.1 * w + p.2)) as [m |] eqn:E.
    - match goal with |- context [wr out ?i ?val] => set (u := val) end.
      split; [by rewrite length_wr |]. intros j v.
      destruct (rd_wr_cases out (p.1 * w + p.2) j u) as [-> | (-> & _ & ->)]; [apply H |].
      intros [= <-]. subst u.
      match goal with |- context [if ?c then _ else _] => destruct c end; [| by left].
      right. split; [done |]. exists p. split; [apply Hl; by left | done].
    - split; [by rewrite length_wr |]. intros j v.
      destruct (rd_wr_cases out (p.1 * w + p.2) j 0%Q) as [-> | (-> & _ & ->)]; [apply H |].
      intros [= <-]. by left. }
  apply Hfold; [auto |]. split; [by rewrite length_map |].
  intros j v. rewrite rd_map. destruct (rd mag j); [| done]. intros [= <-]. by left.
Qed.

Lemma sort_insert_perm {A} (gt : A -> A -> bool) x l : sort_insert gt x l ≡ₚ x :: l.
Proof.
  induction l as [| y l IH]; simpl; [done |].
  destruct (gt x y); [| done]. rewrite IH. apply Permutation_swap.
Qed.

Lemma js_sort_perm {A} (gt : A -> A -> bool) l : js_sort gt l ≡ₚ l.
Proof.
  induction l as [| x l IH]; simpl; [done |].
  rewrite sort_insert_perm. by constructor.
Qed.

Lemma Qlt_bool_iff a b : Qlt_bool a b = true <-> (a < b)%Q.
Proof.
  unfold Qlt_bool. rewrite negb_true_iff. split.
  - intros H. apply Qnot_le_lt. intros Hle. apply Qle_bool_iff in Hle. congruence.
  - intros H. destruct (Qle_bool b a) eqn:E; [| done].
    apply Qle_bool_iff in E. exfalso. eapply Qlt_not_le; eauto.
Qed.

(** Either nothing is positive and both thresholds are 0, or each threshold
    that exists is one of the positive magnitudes. *)
Lemma percentileThresholds_cases nms hiPct loPct :
  let t := percentileThresholds nms hiPct loPct in
  (Forall (fun v => ~ (0 < v)%Q) nms /\ t = (Some 0%Q, Some 0%Q)) \/
  ((forall v, t.1 = Some v -> (0 < v)%Q) /\ (forall v, t.2 = Some v -> (0 < v)%Q)).
Proof.
  unfold percentileThresholds.
  set (pos := filter (fun v => Qlt_bool 0 v) nms).
  set (vals := js_sort _ pos).
  assert (forall i v, rd vals i = Some v -> (0 < v)%Q) as Hpos.
  { intros i v H. unfold rd in H. destruct (i <? 0); [done |].
    apply list_elem_of_lookup_2 in H. unfold vals in H. rewrite js_sort_perm in H.
    apply list_elem_of_filter in H as [H _]. apply Qlt_bool_iff. by apply Is_true_true. }
  destruct (Z.eqb_spec (Z.of_nat (length vals)) 0) as [E | E]; simpl.
  - left. split; [| done].
    assert (pos = []) as Hnil.
    { apply length_zero_iff_nil.
      pose proof (Permutation_length (js_sort_perm (fun a b => Qlt_bool 0 (a - b)) pos)) as HP.
      fold vals in HP. lia. }
    apply list.Forall_forall. intros v Hv Hlt.
    assert (v ∈ pos) as Hin.
    { apply list_elem_of_filter. split; [| done]. apply Is_true_true. by apply Qlt_bool_iff. }
    rewrite Hnil in Hin. by apply not_elem_of_nil in Hin.
  - right. split; intros v; apply Hpos.
Qed.

Lemma classify_zero_not_weak nms hiPct loPct :
  let t := percentileThresholds nms hiPct loPct in
  classify t.1 t.2 0%Q <> weak.
Proof.
  intros t. destruct (percentileThresholds_cases nms hiPct loPct) as [[_ E] | [H1 H2]];
    fold t in E || fold t in H1, H2.
  - rewrite E. done.
  - unfold classify, geq.
    assert (forall o, (forall v, o = Some v -> (0 < v)%Q) ->
              match o with Some t0 => Qle_bool t0 0 | None => false end = false) as Hf.
    { intros [v |] Hv; [| done]. specialize (Hv v eq_refl).
      destruct (Qle_bool v 0) eqn:E; [| done]. apply Qle_bool_iff in E.
      exfalso. eapply Qlt_not_le; eauto. }
    rewrite (Hf _ H1), (Hf _ H2). done.
Qed.

(** *** A worked example: a 7x5 gradient field *)


Lemma sample_linked :
  hysteresis sample_nms 7 5 (Some 9%Q) (Some 6%Q) = Some sample_edges.
Proof. vm_compute. done. Qed.

(** *** The claims about hysteresis, the seal and the paint step *)

Lemma hysteresis_spec nms w h high low out :
  hysteresis nms w h high low = Some out ->
  settled w h out /\ promotes w h (map (classify high low) nms) out.
Proof. apply link_spec. Qed.

Lemma promotes_keeps w h a b j v :
  promotes w h a b -> rd a j = Some v -> v <> weak -> rd b j = Some v.
Proof.
  intros [_ H] Hv Hne. destruct (H j) as [-> | (E & _)]; [done |]. congruence.
Qed.

(** C9.  Hysteresis linking reaches a fixed point: scanning its output again
    promotes nothing, and in the output no weak pixel of the [w] x [h] buffer
    has a strong pixel among its eight neighbours.  The input is the output of
    [nonMaxSuppression] with the thresholds of [percentileThresholds], as in
    [toEdgePng]. *)
Theorem hysteresis_fixed_point absDeg mag ang w h hiPct loPct :
  let nms := nonMaxSuppression absDeg mag ang w h in
  let t := percentileThresholds nms hiPct loPct in
  exists out, hysteresis nms w h t.1 t.2 = Some out /\
    pass w h out = (out, false) /\
    (forall fuel, link (S fuel) w h out = Some out) /\
    forall y x o, 0 <= x < w -> 0 <= y < h ->
      rd out (y * w + x) = Some weak -> o ∈ ring ->
      rd out ((y + o.1) * w + (x + o.2)) <> Some strong.
Proof.
  intros nms t. destruct (hysteresis_returns nms w h t.1 t.2) as [out E].
  exists out. split; [done |]. apply hysteresis_spec in E as [Hs Hp].
  split; [exact Hs |]. unfold settled in Hs.
  split; [intros fuel; simpl; by rewrite Hs |].
  intros y x o Hx Hy Hw Ho.
  destruct (decide (1 <= y <= h - 2 /\ 1 <= x <= w - 2)) as [Hin | Hout].
  - apply elem_of_interior in Hin.
    by apply (strongNear_false out w y x (settled_no_promotable w h out y x Hs Hin Hw)).
  - exfalso. destruct Hp as [_ Hp].
    assert (rd (map (classify t.1 t.2) nms) (y * w + x) = Some weak) as Hc.
    { destruct (Hp (y * w + x)) as [<- | (? & ? & _)]; [done | congruence]. }
    rewrite rd_map in Hc. destruct (rd nms (y * w + x)) as [v |] eqn:Ev; [| done].
    simpl in Hc. injection Hc as Hc.
    destruct (nonMaxSuppression_spec absDeg mag ang w h) as [_ Hn].
    destruct (Hn _ _ Ev) as [-> | (_ & [y' x'] & Hq & Hidx)].
    + by apply (classify_zero_not_weak nms hiPct loPct).
    + pose proof Hq as Hq'. apply elem_of_interior in Hq'. simpl in Hidx.
      apply index_inj in Hidx; lia.
Qed.

Lemma hysteresis_fixed_point_witness :
  exists out,
    hysteresis sample_nms 7 5 (Some 9%Q) (Some 6%Q) = Some out /\
    pass 7 5 out = (out, false) /\
    link 1 7 5 out = Some out /\
    rd out (1 * 7 + 1) = Some weak /\
    rd out ((1 + 1) * 7 + (1 + 1)) <> Some strong.
Proof.
  destruct (hysteresis_fixed_point degrees sample_mag sample_ang 7 5
              (hiPctOf 34) (hiPctOf 34 * 0.55)) as (out & E & Hs & Hl & H).
  exists out. split; [exact E |]. split; [exact Hs |]. split; [apply Hl |].
  assert (out = sample_edges) as ->.
  { pose proof sample_linked as E'. unfold sample_nms in E'.
    change (hysteresis (nonMaxSuppression degrees sample_mag sample_ang 7 5) 7 5
              (Some 9%Q) (Some 6%Q) = Some out) in E.
    rewrite E' in E. by injection E. }
  split; [reflexivity |].
  apply (H 1 1 (1, 1)); [lia | lia | reflexivity |].
  vm_compute. repeat constructor.
Defined.

Lemma rd_of_nat {A} (a : list A) (n : nat) : rd a (Z.of_nat n) = a !! n.
Proof. unfold rd. destruct (Z.ltb_spec (Z.of_nat n) 0); [lia |]. by rewrite Nat2Z.id. Qed.


(** C10.  Hysteresis and the seal only ever add to the strong set: a pixel
    classified strong stays strong, a background pixel stays background, the
    seal keeps every strong pixel strong and copies the border ring. *)
Theorem strong_set_monotone nms w h high low :
  exists out, hysteresis nms w h high low = Some out /\
    (forall j v, rd nms j = Some v -> classify high low v = strong ->
       rd out j = Some strong) /\
    (forall j v, rd nms j = Some v -> classify high low v = bg ->
       rd out j = Some bg) /\
    (forall src j, rd src j = Some strong ->
       rd (medianSeal src w h) j = Some strong) /\
    (forall src y x, onBorder w h y x ->
       rd (medianSeal src w h) (y * w + x) = rd src (y * w + x)).
Proof.
  destruct (hysteresis_returns nms w h high low) as [out E].
  exists out. split; [done |]. apply hysteresis_spec in E as [_ Hp].
  repeat split.
  - intros j v Hv Hc. apply (promotes_keeps _ _ _ _ _ _ Hp); [| done].
    rewrite rd_map, Hv. simpl. by rewrite Hc.
  - intros j v Hv Hc. apply (promotes_keeps _ _ _ _ _ _ Hp); [| done].
    rewrite rd_map, Hv. simpl. by rewrite Hc.
  - intros src j Hj. destruct (medianSeal_spec src w h) as [_ H].
    destruct (H j) as [-> | [-> _]]; done.
  - intros src y x Hb. destruct (medianSeal_spec src w h) as [_ H].
    destruct (H (y * w + x)) as [-> | (_ & q & Hq & Hidx)]; [done |].
    by apply (border_not_interior w h y x q) in Hidx.
Qed.

Lemma strong_set_monotone_witness :
  exists out, hysteresis sample_nms 7 5 (Some 9%Q) (Some 6%Q) = Some out /\
    rd out 12 = Some strong /\ rd out 22 = Some bg /\
    rd (medianSeal sample_edges 7 5) 18 = Some strong /\
    rd (medianSeal sample_edges 7 5) (0 * 7 + 3) = rd sample_edges (0 * 7 + 3).
Proof.
  destruct (strong_set_monotone sample_nms 7 5 (Some 9%Q) (Some 6%Q))
    as (out & E & H1 & H2 & H3 & H4).
  exists out. split; [exact E |]. split; [| split; [| split]].
  - apply (H1 12 9%Q); reflexivity.
  - apply (H2 22 5%Q); reflexivity.
  - apply H3. reflexivity.
  - apply H4. unfold onBorder. lia.
Defined.

(** *** The paint step *)


Lemma paint_length edges : length (paint edges) = (4 * length edges)%nat.
Proof. induction edges as [| e edges IH]; [done |]. unfold paint in *. cbn. rewrite IH. lia. Qed.


(** *** A field without edges *)

Lemma lookup_rd {A} (a : list A) (n : nat) (v : A) :
  a !! n = Some v -> rd a (Z.of_nat n) = Some v.
Proof. by rewrite rd_of_nat. Qed.

Lemma wr_flat l i v : flat l -> (v == 0)%Q -> flat (wr l i v).
Proof. intros Hl Hv. unfold wr. destruct (i <? 0); [done |]. by apply Forall_insert. Qed.

Lemma nonMaxSuppression_flat absDeg mag ang w h :
  flat mag -> flat (nonMaxSuppression absDeg mag ang w h).
Proof.
  intros Hm. apply list.Forall_forall. intros v Hv.
  apply list_elem_of_lookup in Hv as [n Hn]. apply lookup_rd in Hn.
  destruct (nonMaxSuppression_spec absDeg mag ang w h) as [_ H].
  destruct (H _ _ Hn) as [-> | [Hmag _]]; [reflexivity |].
  unfold flat in Hm. rewrite list.Forall_forall in Hm. apply Hm.
  unfold rd in Hmag. destruct (Z.of_nat n <? 0); [done |].
  by apply list_elem_of_lookup_2 in Hmag.
Qed.

Lemma rd_replicate {A} (n : nat) (c : A) i :
  0 <= i < Z.of_nat n -> rd (replicate n c) i = Some c.
Proof.
  intros H. unfold rd. destruct (Z.ltb_spec i 0); [lia |].
  apply lookup_replicate_2. lia.
Qed.

Lemma dot_gx_flat c : (dot gxK (map inject_Z (replicate 9 c)) == 0)%Q.
Proof. unfold dot, Qsum, gxK. simpl. ring. Qed.

Lemma dot_gy_flat c : (dot gyK (map inject_Z (replicate 9 c)) == 0)%Q.
Proof. unfold dot, Qsum, gyK. simpl. ring. Qed.

Lemma window_reads_flat (c : Z) w h y x :
  (y, x) ∈ interior w h ->
  mapM (fun o => rd (replicate (Z.to_nat (w * h)) c) ((y + o.1) * w + (x + o.2))) window
  = Some (replicate 9 c).
Proof.
  intros Hin. apply elem_of_interior in Hin.
  assert (forall dy dx, -1 <= dy <= 1 -> -1 <= dx <= 1 ->
            rd (replicate (Z.to_nat (w * h)) c) ((y + dy) * w + (x + dx)) = Some c) as Hrd.
  { intros dy dx Hdy Hdx. apply rd_replicate. rewrite Z2Nat.id by nia. nia. }
  unfold window. cbn -[rd Z.mul Z.add].
  rewrite !Hrd by lia. reflexivity.
Qed.

Lemma sobelAt_flat hypot atan2 (c : Z) w h mag ang p :
  (forall a b, a == 0 -> b == 0 -> hypot a b == 0)%Q ->
  p ∈ interior w h -> flat mag ->
  exists mag' ang',
    sobelAt hypot atan2 (replicate (Z.to_nat (w * h)) c) w (Some (mag, ang)) p
    = Some (mag', ang') /\ flat mag' /\ length mag' = length mag.
Proof.
  intros Hh Hp Hm. destruct p as [y x]. unfold sobelAt.
  change (Some (mag, ang) ≫= ?f) with (f (mag, ang)). cbv beta.
  change (((y, x).1)) with y. change (((y, x).2)) with x.
  rewrite (window_reads_flat c w h y x Hp).
  change (Some (replicate 9 c) ≫= ?f) with (f (replicate 9 c)). cbv beta.
  eexists _, _. split; [reflexivity |]. split; [| apply length_wr].
  apply wr_flat; [done |]. apply Hh; [apply dot_gx_flat | apply dot_gy_flat].
Qed.

(** On a buffer of one intensity the Sobel magnitudes are all zero. *)
Lemma sobel_flat hypot atan2 c w h :
  (forall a b, a == 0 -> b == 0 -> hypot a b == 0)%Q ->
  exists mag ang,
    sobel hypot atan2 (replicate (Z.to_nat (w * h)) c) w h = Some (mag, ang) /\
    flat mag /\ length mag = Z.to_nat (w * h).
Proof.
  intros Hh. unfold sobel.
  assert (forall l mag ang, (forall p, p ∈ l -> p ∈ interior w h) -> flat mag ->
            exists mag' ang',
              foldl (sobelAt hypot atan2 (replicate (Z.to_nat (w * h)) c) w)
                    (Some (mag, ang)) l = Some (mag', ang') /\ flat mag' /\
              length mag' = length mag) as Hfold.
  { induction l as [| p l IH]; intros mag ang Hl Hm; [by eauto |].
    cbn [foldl].
    destruct (sobelAt_flat hypot atan2 c w h mag ang p Hh) as (m' & a' & -> & Hm' & HL);
      [apply Hl; by left | done |].
    rewrite <- HL. apply IH; [intros; apply Hl; by right | done]. }
  destruct (Hfold (interior w h) (zeros w h) (zeros w h)) as (m & a & E & Hm & HL);
    [auto | unfold zeros; apply Forall_replicate; reflexivity |].
  exists m, a. split; [exact E |]. split; [exact Hm |].
  rewrite HL. unfold zeros. apply length_replicate.
Qed.

Lemma thresholds_flat nms hiPct loPct :
  flat nms -> percentileThresholds nms hiPct loPct = (Some 0%Q, Some 0%Q).
Proof.
  intros Hf. unfold percentileThresholds.
  assert (filter (fun v => Qlt_bool 0 v) nms = []) as ->; [| done].
  induction Hf as [| v l Hv _ IH]; [done |].
  rewrite filter_cons_False; [done |].
  intros Hlt. apply Is_true_true, Qlt_bool_iff in Hlt. rewrite Hv in Hlt.
  by apply Qlt_irrefl in Hlt.
Qed.

Lemma classify_flat v : (v == 0)%Q -> classify (Some 0%Q) (Some 0%Q) v = strong.
Proof.
  intros Hv. unfold classify, geq.
  assert (Qle_bool 0 v = true) as ->; [| done].
  apply Qle_bool_iff. rewrite Hv. apply Qle_refl.
Qed.

Lemma classify_all_flat nms :
  flat nms -> map (classify (Some 0%Q) (Some 0%Q)) nms = replicate (length nms) strong.
Proof.
  induction 1 as [| v l Hv _ IH]; [done |]. cbn [map length replicate].
  by rewrite (classify_flat v Hv), IH.
Qed.

Lemma link_all_strong w h n m :
  link (S m) w h (replicate n strong) = Some (replicate n strong).
Proof.
  simpl. unfold pass. rewrite quiet_scan; [done |].
  apply list.Forall_forall. intros p _ Hw.
  unfold rd in Hw. destruct (p.1 * w + p.2 <? 0); [done |].
  apply lookup_replicate in Hw as [Hw _]. discriminate.
Qed.

Lemma medianSeal_all_strong w h n :
  medianSeal (replicate n strong) w h = replicate n strong.
Proof.
  destruct (medianSeal_spec (replicate n strong) w h) as [HL H].
  apply list_eq. intros i. rewrite <- !rd_of_nat.
  destruct (H (Z.of_nat i)) as [E | [E _]]; [done |].
  rewrite E. symmetry. apply rd_replicate.
  apply rd_Some_range in E. rewrite HL, length_replicate in E. lia.
Qed.

Lemma paint_all_strong n :
  paint (replicate n strong) = mjoin (replicate n [0; 0; 0; 255]).
Proof. induction n as [| n IH]; [done |]. cbn. unfold paint in IH. by rewrite IH. Qed.

(** A field of zeros: thresholds 0 and 0, every cell strong, a black raster. *)
Lemma flat_field_black nms w h ui :
  flat nms ->
  let t := percentileThresholds nms (hiPctOf ui) (hiPctOf ui * 0.55) in
  t = (Some 0%Q, Some 0%Q) /\
  hysteresis nms w h t.1 t.2 = Some (replicate (length nms) strong) /\
  edgesOf nms w h ui = Some (mjoin (replicate (length nms) [0; 0; 0; 255])).
Proof.
  intros Hf t.
  assert (t = (Some 0%Q, Some 0%Q)) as Ht by (by apply thresholds_flat).
  assert (hysteresis nms w h t.1 t.2 = Some (replicate (length nms) strong)) as Hh.
  { rewrite Ht. unfold hysteresis. cbn [fst snd].
    rewrite (classify_all_flat nms Hf). apply link_all_strong. }
  split; [done |]. split; [done |].
  unfold edgesOf. fold t. rewrite Hh. simpl.
  by rewrite medianSeal_all_strong, paint_all_strong.
Qed.

(** *** An image of one colour through the first stages *)

Lemma toGrayscale_plain cr cg cb ca n :
  toGrayscale (plain cr cg cb ca n) = replicate n (luma cr cg cb).
Proof. induction n as [| n IH]; [done |]. cbn. f_equal. exact IH. Qed.

Lemma toInt32_exact (q : Q) (c : Z) :
  (q == inject_Z c)%Q -> - 2 ^ 31 <= c < 2 ^ 31 -> toInt32 q = c.
Proof.
  destruct q as [n d]. unfold Qeq, toInt32. simpl. intros E Hc.
  rewrite Z.mul_1_r in E. subst n. rewrite Z.quot_mul by lia.
  rewrite Z.mod_small by lia. lia.
Qed.

Lemma elem_of_grid w h y x :
  (y, x) ∈ grid w h <-> (0 <= y < h /\ 0 <= x < w).
Proof.
  unfold grid. rewrite list_elem_of_bind. split.
  - intros (y' & Hx & Hy). apply list_elem_of_bind in Hx as (x' & Hx & Hx').
    apply list_elem_of_singleton in Hx. inversion Hx; subst.
    apply elem_of_seqZ in Hy, Hx'. lia.
  - intros [Hy Hx]. exists y. split.
    + apply list_elem_of_bind. exists x. split; [apply list_elem_of_singleton; done |].
      apply elem_of_seqZ. lia.
    + apply elem_of_seqZ. lia.
Qed.

Lemma window_clamped_reads_flat (c : Z) w h y x :
  (y, x) ∈ grid w h ->
  mapM (fun o => rd (replicate (Z.to_nat (w * h)) c)
                    (clampTo 0 (h - 1) (y + o.1) * w + clampTo 0 (w - 1) (x + o.2))) window
  = Some (replicate 9 c).
Proof.
  intros Hin. apply elem_of_grid in Hin.
  assert (forall dy dx,
            rd (replicate (Z.to_nat (w * h)) c)
               (clampTo 0 (h - 1) (y + dy) * w + clampTo 0 (w - 1) (x + dx)) = Some c) as Hrd.
  { intros dy dx. apply rd_replicate. unfold clampTo. rewrite Z2Nat.id by nia. nia. }
  unfold window. cbn -[rd Z.mul Z.add clampTo Z.sub].
  rewrite !Hrd. reflexivity.
Qed.

Lemma bilateralAt_flat exp (c : Z) w h sigmaR out y x :
  (forall q, q == 0 -> exp q == 1)%Q -> 0 <= c <= 255 ->
  (y, x) ∈ grid w h ->
  bilateralAt exp (replicate (Z.to_nat (w * h)) c) w h sigmaR out (y, x)
  = wr out (y * w + x) c.
Proof.
  intros Hexp Hc Hin. unfold bilateralAt. cbn [fst snd].
  rewrite (window_clamped_reads_flat c w h y x Hin).
  pose proof Hin as Hin'. apply elem_of_grid in Hin'.
  rewrite rd_replicate by (rewrite Z2Nat.id by nia; nia).
  f_equal.
  cbn [map replicate zip_with].
  set (e := range exp sigmaR (inject_Z c - inject_Z c)).
  assert (e == 1)%Q as He.
  { unfold e, range. apply Hexp. unfold Qdiv. ring. }
  assert (Qsum [e; e; e; e; e; e; e; e; e] == 9)%Q as Hws
    by (unfold Qsum; simpl; rewrite He; ring).
  assert (Qeq_bool (Qsum [e; e; e; e; e; e; e; e; e]) 0 = false) as ->.
  { destruct (Qeq_bool _ 0) eqn:E0; [| done]. apply Qeq_bool_iff in E0.
    rewrite Hws in E0. discriminate. }
  rewrite (toInt32_exact _ c); [unfold clamp8; lia | | lia].
  rewrite Hws. unfold Qsum. simpl. rewrite He. field.
Qed.

Lemma writes_keep {A} (idx : Z * Z -> Z) (c : A) l : forall out j,
  rd out j = Some c -> rd (foldl (fun o p => wr o (idx p) c) out l) j = Some c.
Proof.
  induction l as [| p l IH]; intros out j Hj; simpl; [done |].
  apply IH. destruct (rd_wr_cases out (idx p) j c) as [-> | (_ & _ & ->)]; done.
Qed.

Lemma writes_hit {A} (idx : Z * Z -> Z) (c : A) l : forall out p,
  p ∈ l -> is_Some (rd out (idx p)) ->
  rd (foldl (fun o p => wr o (idx p) c) out l) (idx p) = Some c.
Proof.
  induction l as [| q l IH]; intros out p Hp Hs; [by apply not_elem_of_nil in Hp |].
  simpl. apply elem_of_cons in Hp as [-> | Hp].
  - apply writes_keep. by apply rd_wr_eq.
  - apply IH; [done |].
    destruct (rd_wr_cases out (idx q) (idx p) c) as [-> | (_ & _ & ->)]; [done | by eexists].
Qed.

Lemma writes_length {A} (idx : Z * Z -> Z) (c : A) l : forall out,
  length (foldl (fun o p => wr o (idx p) c) out l) = length out.
Proof.
  induction l as [| p l IH]; intros out; simpl; [done |]. by rewrite IH, length_wr.
Qed.

Lemma foldl_agree {A B} (f g : A -> B -> A) (l : list B) :
  (forall a p, p ∈ l -> f a p = g a p) -> forall a, foldl f a l = foldl g a l.
Proof.
  induction l as [| p l IH]; intros H a; simpl; [done |].
  rewrite (H a p) by (by left). apply IH. intros b q Hq. apply H. by right.
Qed.

(** The denoising stage leaves a buffer of one intensity as it is. *)
Lemma bilateral3_flat exp (c : Z) w h sigmaR :
  (forall q, q == 0 -> exp q == 1)%Q -> 0 <= c <= 255 -> 0 <= w -> 0 <= h ->
  bilateral3 exp (replicate (Z.to_nat (w * h)) c) w h sigmaR
  = replicate (Z.to_nat (w * h)) c.
Proof.
  intros Hexp Hc Hw Hh. unfold bilateral3.
  rewrite (foldl_agree _ (fun o p => wr o (p.1 * w + p.2) c)).
  2:{ intros a [y x] Hp. by apply bilateralAt_flat. }
  set (out0 := map _ _).
  assert (length out0 = Z.to_nat (w * h)) as HL0
    by (unfold out0; by rewrite length_map, length_replicate).
  apply list_eq. intros i.
  destruct (decide (i < Z.to_nat (w * h))%nat) as [Hi | Hi].
  - rewrite lookup_replicate_2 by done. rewrite <- rd_of_nat.
    assert (0 < w) as Hw' by nia.
    pose proof (Z.div_mod (Z.of_nat i) w ltac:(lia)) as Hdm.
    pose proof (Z.mod_pos_bound (Z.of_nat i) w Hw') as Hmod.
    assert (0 <= Z.of_nat i / w < h) as Hdiv.
    { split; [apply Z.div_pos; lia |]. apply Z.div_lt_upper_bound; nia. }
    replace (Z.of_nat i) with ((Z.of_nat i / w, Z.of_nat i mod w).1 * w
                               + (Z.of_nat i / w, Z.of_nat i mod w).2) by (simpl; lia).
    apply (writes_hit (fun p => p.1 * w + p.2) c).
    + apply elem_of_grid. lia.
    + simpl. apply rd_in_range. rewrite HL0. lia.
  - rewrite !lookup_ge_None_2; [done | rewrite length_replicate; lia |].
    rewrite writes_length, HL0. lia.
Qed.

Lemma luma_range cr cg cb : 0 <= luma cr cg cb <= 255.
Proof. unfold luma, clamp8. lia. Qed.

(** C4, as the code behaves.  An image of one colour has one intensity; the
    denoised buffer is the same, the Sobel magnitudes and the NMS field are
    all zero and the thresholds are [{high: 0, low: 0}]; then every cell
    passes [nms[i] >= high], hysteresis marks the whole buffer strong, and
    the painted raster is solid black. *)
Theorem uniform_image_paints_black exp hypot atan2 absDeg cr cg cb ca w h ui :
  (forall q, q == 0 -> exp q == 1)%Q ->
  (forall u v, u == 0 -> v == 0 -> hypot u v == 0)%Q ->
  0 <= w -> 0 <= h ->
  let n := Z.to_nat (w * h) in
  let den := bilateral3 exp (toGrayscale (plain cr cg cb ca n)) w h 18 in
  exists mag ang,
    sobel hypot atan2 den w h = Some (mag, ang) /\
    flat (nonMaxSuppression absDeg mag ang w h) /\
    percentileThresholds (nonMaxSuppression absDeg mag ang w h)
      (hiPctOf ui) (hiPctOf ui * 0.55) = (Some 0%Q, Some 0%Q) /\
    hysteresis (nonMaxSuppression absDeg mag ang w h) w h (Some 0%Q) (Some 0%Q)
      = Some (replicate n strong) /\
    toEdgePng exp hypot atan2 absDeg (plain cr cg cb ca n) w h ui
      = Some (mjoin (replicate n [0; 0; 0; 255])).
Proof.
  intros Hexp Hhyp Hw Hh n den.
  assert (den = replicate n (luma cr cg cb)) as Hden.
  { unfold den. rewrite toGrayscale_plain.
    apply bilateral3_flat; [done | apply luma_range | done | done]. }
  destruct (sobel_flat hypot atan2 (luma cr cg cb) w h Hhyp) as (mag & ang & Hs & Hm & HLm).
  fold n in Hs, HLm. rewrite <- Hden in Hs.
  exists mag, ang. split; [exact Hs |].
  pose proof (nonMaxSuppression_flat absDeg mag ang w h Hm) as Hflat.
  assert (length (nonMaxSuppression absDeg mag ang w h) = n) as Hlen.
  { destruct (nonMaxSuppression_spec absDeg mag ang w h) as [-> _]. exact HLm. }
  destruct (flat_field_black (nonMaxSuppression absDeg mag ang w h) w h ui Hflat)
    as (Ht & Hhy & He).
  rewrite Ht in Hhy. cbn [fst snd] in Hhy. rewrite Hlen in Hhy, He.
  split; [exact Hflat |]. split; [exact Ht |]. split; [exact Hhy |].
  unfold toEdgePng. fold den. rewrite Hs. exact He.
Qed.

Lemma uniform_image_paints_black_witness :
  toEdgePng exp_near_0 taxicab (fun _ _ => 0%Q) degrees (plain 128 128 128 255 (Z.to_nat (4 * 4))) 4 4 34
  = Some (mjoin (replicate (Z.to_nat (4 * 4)) [0; 0; 0; 255])).
Proof.
  destruct (uniform_image_paints_black exp_near_0 taxicab (fun _ _ => 0%Q) degrees
              128 128 128 255 4 4 34) as (mag & ang & _ & _ & _ & _ & E); [| | lia | lia |].
  - intros q Hq. unfold exp_near_0. rewrite Hq. reflexivity.
  - intros u v Hu Hv. unfold taxicab. rewrite Hu, Hv. reflexivity.
  - exact E.
Defined.

(** *** Which pixels hysteresis makes strong *)

Lemma strongNear_true out w y x :
  strongNear out w y x = true ->
  exists o, o ∈ ring /\ rd out ((y + o.1) * w + (x + o.2)) = Some strong.
Proof.
  unfold strongNear. intros H. apply existsb_exists in H as (o & Ho & Hs).
  exists o. split; [by apply list_elem_of_In |].
  destruct (rd out _) as [v |]; [| done]. simpl in Hs.
  apply Z.eqb_eq in Hs. by subst.
Qed.

Lemma visit_sound nms w h high low st p :
  p ∈ interior w h -> sound nms w h high low st.1 ->
  sound nms w h high low (visit w st p).1.
Proof.
  intros Hp [Hs Hw].
  destruct (visit_cases w st p) as [E | (Hwk & Hn & E)]; rewrite E; [done |].
  simpl. apply strongNear_true in Hn as (o & Ho & Hn).
  destruct p as [y x]. simpl in *.
  destruct (Hw _ Hwk) as (v & Hv & Hc).
  split; intros j.
  - destruct (rd_wr_cases st.1 (y * w + x) j strong) as [-> | (-> & _ & _)]; [apply Hs |].
    intros _. eapply linked_step; eauto.
  - destruct (rd_wr_cases st.1 (y * w + x) j strong) as [-> | (-> & _ & ->)]; [apply Hw |].
    discriminate.
Qed.

Lemma scan_sound nms w h high low l : forall st,
  (forall p, p ∈ l -> p ∈ interior w h) ->
  sound nms w h high low st.1 -> sound nms w h high low (foldl (visit w) st l).1.
Proof.
  induction l as [| p l IH]; intros st Hl Hs; simpl; [done |].
  apply IH; [intros; apply Hl; by right |].
  apply visit_sound; [apply Hl; by left | done].
Qed.

Lemma link_sound nms w h high low : forall n out r,
  link n w h out = Some r -> sound nms w h high low out -> sound nms w h high low r.
Proof.
  induction n as [| n IH]; intros out r; simpl; [discriminate |].
  intros H Hs.
  pose proof (scan_sound nms w h high low (interior w h) (out, false) (fun _ H => H) Hs) as Hp.
  fold (pass w h out) in Hp.
  destruct (pass w h out) as [out' c]. simpl in *. destruct c.
  - eapply IH; eauto.
  - by inversion H; subst.
Qed.

Lemma classify_sound nms w h high low :
  sound nms w h high low (map (classify high low) nms).
Proof.
  split; intros j; rewrite rd_map; destruct (rd nms j) as [v |] eqn:E; try done;
    intros [= H].
  - eapply linked_seed; eauto.
  - eauto.
Qed.

(** X4.  What hysteresis computes: a pixel is strong in the result exactly
    when it is linked, that is, when it is at or above the high threshold, or
    is an interior pixel at or above the low threshold joined to such a pixel
    by a chain of 8-neighbours of the same kind. *)
Theorem hysteresis_strong_iff_linked nms w h high low out :
  hysteresis nms w h high low = Some out ->
  forall j, rd out j = Some strong <-> linked nms w h high low j.
Proof.
  intros E j. split.
  - apply (link_sound nms w h high low _ _ _ E (classify_sound nms w h high low)).
  - destruct (hysteresis_spec _ _ _ _ _ _ E) as [Hset Hpro].
    induction 1 as [j v Hv Hc | y x o v Hin Hv Hc Ho _ IH].
    + eapply promotes_keeps; [exact Hpro | | done].
      rewrite rd_map, Hv. simpl. by rewrite Hc.
    + destruct Hpro as [_ Hpro]. destruct (Hpro (y * w + x)) as [Hsame | (_ & Hst & _)]; [| done].
      rewrite rd_map, Hv in Hsame. simpl in Hsame. rewrite Hc in Hsame.
      pose proof (settled_no_promotable _ _ _ _ _ Hset Hin Hsame) as Hno.
      exfalso. exact (strongNear_false _ _ _ _ Hno o Ho IH).
Qed.

Lemma hysteresis_strong_iff_linked_witness :
  hysteresis sample_nms 7 5 (Some 9%Q) (Some 6%Q) = Some sample_edges /\
  (rd sample_edges 18 = Some strong <-> linked sample_nms 7 5 (Some 9%Q) (Some 6%Q) 18).
Proof.
  split; [exact sample_linked |].
  apply (hysteresis_strong_iff_linked sample_nms 7 5 (Some 9%Q) (Some 6%Q) sample_edges).
  exact sample_linked.
Defined.

(** X3.  The loop of [hysteresis] always ends, after at most one pass more
    than there are pixels, and its result has one cell per magnitude. *)
Theorem hysteresis_ends_same_size nms w h high low :
  exists out, hysteresis nms w h high low = Some out /\ length out = length nms.
Proof.
  destruct (hysteresis_returns nms w h high low) as [out E]. exists out. split; [done |].
  destruct (hysteresis_spec _ _ _ _ _ _ E) as [_ [HL _]]. by rewrite HL, length_map.
Qed.

(** *** The seal as a majority vote *)

Lemma rd_same_length {A B} (a : list A) (b : list B) i :
  length a = length b -> rd a i = None -> rd b i = None.
Proof.
  intros HL Ha. destruct (rd b i) as [v |] eqn:E; [| done].
  apply rd_Some_range in E. rewrite <- HL in E.
  apply rd_in_range in E as [? E]. congruence.
Qed.

Lemma sealAt_writes src w out p :
  length out = length src ->
  sealAt src w out p =
    match rd src (p.1 * w + p.2) with
    | Some v => wr out (p.1 * w + p.2) (sealed (countStrong src w p.1 p.2) v)
    | None => out
    end.
Proof.
  intros HL. unfold sealAt, sealed.
  destruct (rd src (p.1 * w + p.2)) as [v |] eqn:E.
  - by destruct (5 <=? _).
  - destruct (5 <=? _); [| done]. apply wr_out_of_range.
    by apply (rd_same_length src).
Qed.

Lemma length_sealAt src w out p :
  length out = length src -> length (sealAt src w out p) = length src.
Proof.
  intros HL. rewrite sealAt_writes by done.
  destruct (rd src _); [by rewrite length_wr | done].
Qed.

Lemma sealAt_here src w out p :
  length out = length src ->
  rd (sealAt src w out p) (p.1 * w + p.2)
  = sealed (countStrong src w p.1 p.2) <$> rd src (p.1 * w + p.2).
Proof.
  intros HL. rewrite sealAt_writes by done.
  destruct (rd src (p.1 * w + p.2)) as [v |] eqn:E; simpl.
  - apply rd_wr_eq. apply rd_in_range. rewrite HL. by apply rd_Some_range in E.
  - by apply (rd_same_length src).
Qed.

Lemma sealAt_elsewhere src w out p j :
  length out = length src -> p.1 * w + p.2 <> j ->
  rd (sealAt src w out p) j = rd out j.
Proof.
  intros HL Hne. rewrite sealAt_writes by done.
  destruct (rd src _); [by apply rd_wr_ne | done].
Qed.

Lemma seal_scan_elsewhere src w l j : forall out,
  length out = length src ->
  (forall p, p ∈ l -> p.1 * w + p.2 <> j) ->
  rd (foldl (sealAt src w) out l) j = rd out j.
Proof.
  induction l as [| p l IH]; intros out HL Hl; simpl; [done |].
  rewrite IH; [| by apply length_sealAt | intros; apply Hl; by right].
  apply sealAt_elsewhere; [done | apply Hl; by left].
Qed.

Lemma seal_scan_here src w l p0 : forall out,
  length out = length src -> p0 ∈ l ->
  (forall p, p ∈ l -> p.1 * w + p.2 = p0.1 * w + p0.2 -> p = p0) ->
  rd (foldl (sealAt src w) out l) (p0.1 * w + p0.2)
  = sealed (countStrong src w p0.1 p0.2) <$> rd src (p0.1 * w + p0.2).
Proof.
  induction l as [| p l IH]; intros out HL Hin Hinj; [by apply not_elem_of_nil in Hin |].
  simpl. destruct (decide (p0 ∈ l)) as [Hl | Hl].
  - apply IH; [by apply length_sealAt | done | intros; apply Hinj; [by right | done]].
  - apply elem_of_cons in Hin as [-> | ?]; [| done].
    rewrite seal_scan_elsewhere; [by apply sealAt_here | by apply length_sealAt |].
    intros q Hq E. apply Hl. rewrite <- (Hinj q); [done | by right | done].
Qed.

(** X5.  The seal is a majority vote on its input: an interior pixel becomes
    strong when at least 5 of the 9 pixels of its window are strong in the
    buffer passed in, and keeps its value otherwise.  Pixels the seal has
    already turned strong do not count for their neighbours. *)
Theorem medianSeal_majority src w h y x :
  (y, x) ∈ interior w h ->
  rd (medianSeal src w h) (y * w + x)
  = sealed (countStrong src w y x) <$> rd src (y * w + x).
Proof.
  intros Hin. unfold medianSeal.
  apply (seal_scan_here src w (interior w h) (y, x)); [done | done |].
  intros [y' x'] Hq E. simpl in E.
  apply elem_of_interior in Hin, Hq.
  apply index_inj in E as [-> ->]; [done | lia | lia].
Qed.

Lemma medianSeal_majority_witness :
  (1, 1) ∈ interior 3 3 /\
  rd sample_gap (1 * 3 + 1) = Some weak /\
  rd (medianSeal sample_gap 3 3) (1 * 3 + 1) = Some strong.
Proof.
  assert ((1, 1) ∈ interior 3 3) as H by (apply elem_of_interior; lia).
  split; [exact H |]. split; [reflexivity |].
  rewrite (medianSeal_majority sample_gap 3 3 1 1 H). reflexivity.
Defined.

(** *** Weak pixels through the seal and the paint step *)





(** *** Non-maximum suppression, the thresholds and the slider *)

(** X6.  Non-maximum suppression only thins: its result has the size of the
    magnitude buffer, each cell holds 0 or the magnitude it had, and every
    cell on the one-pixel border holds 0. *)
Theorem nonMaxSuppression_thins absDeg mag ang w h :
  length (nonMaxSuppression absDeg mag ang w h) = length mag /\
  (forall j v, rd (nonMaxSuppression absDeg mag ang w h) j = Some v ->
     v = 0%Q \/ rd mag j = Some v) /\
  (forall y x v, onBorder w h y x ->
     rd (nonMaxSuppression absDeg mag ang w h) (y * w + x) = Some v -> v = 0%Q).
Proof.
  destruct (nonMaxSuppression_spec absDeg mag ang w h) as [HL H].
  split; [done |]. split.
  - intros j v Hv. destruct (H j v Hv) as [-> | [? _]]; auto.
  - intros y x v Hb Hv. destruct (H _ v Hv) as [-> | (_ & q & Hq & E)]; [done |].
    by apply (border_not_interior w h y x q) in E.
Qed.

Lemma above_iff a b : above a b = true <-> (b < a)%Q.
Proof.
  unfold above. rewrite Qlt_bool_iff. unfold Qminus. symmetry. apply Qlt_minus_iff.
Qed.

Lemma sort_insert_sorted x l :
  StronglySorted Qle l -> StronglySorted Qle (sort_insert above x l).
Proof.
  induction 1 as [| y l Hs IH Hy]; simpl; [repeat constructor |].
  destruct (above x y) eqn:E.
  - constructor; [done |].
    rewrite sort_insert_perm. constructor; [| done].
    apply above_iff in E. by apply Qlt_le_weak.
  - assert (x <= y)%Q as Hxy.
    { apply Qnot_lt_le. intros Hlt. apply above_iff in Hlt. congruence. }
    constructor; [by constructor |]. constructor; [done |].
    eapply list.Forall_impl; [exact Hy |]. intros z Hz. simpl in Hz. by eapply Qle_trans.
Qed.

Lemma js_sort_sorted l : StronglySorted Qle (js_sort above l).
Proof.
  induction l as [| x l IH]; simpl; [constructor | by apply sort_insert_sorted].
Qed.

Lemma sorted_lookup (l : list Q) : StronglySorted Qle l ->
  forall i j a b, (i <= j)%nat -> l !! i = Some a -> l !! j = Some b -> (a <= b)%Q.
Proof.
  induction 1 as [| y l Hs IH Hy]; intros i j a b Hij Ha Hb; [done |].
  destruct i as [| i], j as [| j]; simpl in *; try lia.
  - inversion Ha; inversion Hb; subst. apply Qle_refl.
  - inversion Ha; subst. rewrite list.Forall_forall in Hy. apply Hy.
    by eapply list_elem_of_lookup_2.
  - eapply IH; [| eauto | eauto]. lia.
Qed.

(** With percentiles [0 <= loPct <= hiPct < 1] and a positive magnitude in
    the field, both indices fall inside the sorted positive values. *)
Lemma percentile_pair nms hiPct loPct :
  (0 <= loPct)%Q -> (loPct <= hiPct)%Q -> (hiPct < 1)%Q ->
  Exists (fun v => (0 < v)%Q) nms ->
  exists high low,
    percentileThresholds nms hiPct loPct = (Some high, Some low) /\
    (0 < low)%Q /\ (low <= high)%Q /\ high ∈ nms /\ low ∈ nms.
Proof.
  intros Hlo Hle Hhi Hex. unfold percentileThresholds.
  set (pos := filter (fun v => Qlt_bool 0 v) nms).
  change (fun a b : Q => Qlt_bool 0 (a - b)) with above.
  set (vals := js_sort above pos).
  assert (forall v, v ∈ vals -> (0 < v)%Q /\ v ∈ nms) as Hvals.
  { intros v Hv. unfold vals in Hv. rewrite js_sort_perm in Hv.
    apply list_elem_of_filter in Hv as [Hv ?]. split; [| done].
    apply Qlt_bool_iff. by apply Is_true_true. }
  assert (0 < length vals)%nat as Hn.
  { unfold vals. rewrite (Permutation_length (js_sort_perm above pos)).
    apply list.Exists_exists in Hex as (v & Hv & Hp).
    assert (v ∈ pos) as Hin.
    { apply list_elem_of_filter. split; [| done]. apply Is_true_true. by apply Qlt_bool_iff. }
    destruct pos; [by apply not_elem_of_nil in Hin | simpl; lia]. }
  set (n := Z.of_nat (length vals)).
  assert (0 < n) as Hn' by (unfold n; lia).
  destruct (Z.eqb_spec n 0) as [? | _]; [lia |].
  assert (0 < inject_Z n)%Q as Hn1
    by (change 0%Q with (inject_Z 0); rewrite <- Zlt_Qlt; lia).
  assert (0 <= inject_Z n)%Q as Hn0 by by apply Qlt_le_weak.
  assert (0 <= Qfloor (inject_Z n * loPct)) as H0.
  { change 0 with (Qfloor 0). apply Qfloor_resp_le. by apply Qmult_le_0_compat. }
  assert (Qfloor (inject_Z n * loPct) <= Qfloor (inject_Z n * hiPct)) as H1.
  { apply Qfloor_resp_le. by apply Qmult_le_l. }
  assert (Qfloor (inject_Z n * hiPct) < n) as H2.
  { rewrite Zlt_Qlt. eapply Qle_lt_trans; [apply Qfloor_le |].
    rewrite <- (Qmult_1_r (inject_Z n)) at 2.
    by apply Qmult_lt_l. }
  destruct (rd_in_range vals (Qfloor (inject_Z n * hiPct))) as [high Eh]; [unfold n in *; lia |].
  destruct (rd_in_range vals (Qfloor (inject_Z n * loPct))) as [low El]; [unfold n in *; lia |].
  exists high, low. rewrite Eh, El. split; [done |].
  unfold rd in Eh, El.
  destruct (Z.ltb_spec (Qfloor (inject_Z n * hiPct)) 0); [lia |].
  destruct (Z.ltb_spec (Qfloor (inject_Z n * loPct)) 0); [lia |].
  destruct (Hvals high) as [_ ?]; [by eapply list_elem_of_lookup_2 |].
  destruct (Hvals low) as [? ?]; [by eapply list_elem_of_lookup_2 |].
  repeat split; try done.
  eapply (sorted_lookup vals (js_sort_sorted pos)); [| exact El | exact Eh]. lia.
Qed.

Lemma hiPctOf_range ui : (0.82 <= hiPctOf ui <= 0.92)%Q.
Proof.
  unfold hiPctOf. split; [apply Q.le_max_l |].
  apply Q.max_lub; [done | apply Q.le_min_l].
Qed.

Lemma sample_has_edge : Exists (fun v => (0 < v)%Q) sample_nms.
Proof.
  apply list.Exists_exists. exists 9%Q. split; [| done].
  apply (list_elem_of_lookup_2 _ 12%nat). reflexivity.
Qed.

(** X7.  For percentiles [0 <= loPct <= hiPct < 1] and a field with at least
    one positive magnitude, [percentileThresholds] returns two defined
    thresholds, both positive magnitudes of the field, the low one at most
    the high one. *)
Theorem thresholds_ordered nms hiPct loPct :
  (0 <= loPct)%Q -> (loPct <= hiPct)%Q -> (hiPct < 1)%Q ->
  Exists (fun v => (0 < v)%Q) nms ->
  exists high low,
    percentileThresholds nms hiPct loPct = (Some high, Some low) /\
    (0 < low)%Q /\ (low <= high)%Q /\ high ∈ nms /\ low ∈ nms.
Proof. apply percentile_pair. Qed.

Lemma thresholds_ordered_witness :
  exists high low,
    percentileThresholds sample_nms (1 # 2) (1 # 4) = (Some high, Some low) /\
    (0 < low)%Q /\ (low <= high)%Q /\ high ∈ sample_nms /\ low ∈ sample_nms.
Proof.
  apply (thresholds_ordered sample_nms (1 # 2) (1 # 4)); try done.
  exact sample_has_edge.
Defined.

(** X8.  Whatever the slider value [ui], [toEdgePng] uses a high percentile
    between 0.82 and 0.92, and on a field with a positive magnitude its two
    thresholds are defined, positive and ordered. *)
Theorem slider_thresholds nms ui :
  Exists (fun v => (0 < v)%Q) nms ->
  (0.82 <= hiPctOf ui <= 0.92)%Q /\
  exists high low,
    percentileThresholds nms (hiPctOf ui) (hiPctOf ui * 0.55) = (Some high, Some low) /\
    (0 < low)%Q /\ (low <= high)%Q.
Proof.
  intros Hex. pose proof (hiPctOf_range ui) as [Ha Hb]. split; [done |].
  destruct (percentile_pair nms (hiPctOf ui) (hiPctOf ui * 0.55)) as (hi & lo & E & ? & ? & _);
    [| | | done | by exists hi, lo].
  - apply Qmult_le_0_compat; [| done]. eapply Qle_trans; [| exact Ha]. done.
  - rewrite <- (Qmult_1_r (hiPctOf ui)) at 2.
    apply Qmult_le_l; [| done]. eapply Qlt_le_trans; [| exact Ha]. done.
  - eapply Qle_lt_trans; [exact Hb | done].
Qed.

Lemma slider_thresholds_witness :
  (0.82 <= hiPctOf 34 <= 0.92)%Q /\
  exists high low,
    percentileThresholds sample_nms (hiPctOf 34) (hiPctOf 34 * 0.55) = (Some high, Some low) /\
    (0 < low)%Q /\ (low <= high)%Q.
Proof. apply (slider_thresholds sample_nms 34). exact sample_has_edge. Defined.

(** *** The Sobel stage *)

Section SobelFacts.
Variable hypot atan2 : Q -> Q -> Q.

Lemma mapM_rd_map {A B} (f : A -> B) (src : list A) (idx : Z * Z -> Z) (l : list (Z * Z)) :
  mapM (fun o => rd (map f src) (idx o)) l = map f <$> mapM (fun o => rd src (idx o)) l.
Proof.
  induction l as [| o l IH]; [done |]. csimpl. rewrite rd_map.
  destruct (rd src (idx o)); [| done]. csimpl.
  change (@mapM option (@mbind option option_bind) option_ret)
    with (@mapM option option_bind option_ret).
  rewrite IH. destruct (mapM (fun o0 => rd src (idx o0)) l); reflexivity.
Qed.

Lemma dot_gx_shift c vs : length vs = 9%nat ->
  dot gxK (map inject_Z (map (Z.add c) vs)) = dot gxK (map inject_Z vs).
Proof.
  intros HL. do 10 (destruct vs as [| ? vs]; try discriminate).
  unfold dot, Qsum, gxK. cbn. unfold Qplus, Qmult, inject_Z. cbn. f_equal. lia.
Qed.

Lemma dot_gy_shift c vs : length vs = 9%nat ->
  dot gyK (map inject_Z (map (Z.add c) vs)) = dot gyK (map inject_Z vs).
Proof.
  intros HL. do 10 (destruct vs as [| ? vs]; try discriminate).
  unfold dot, Qsum, gyK. cbn. unfold Qplus, Qmult, inject_Z. cbn. f_equal. lia.
Qed.

Lemma sobelAt_shift c src w st p :
  sobelAt hypot atan2 (map (Z.add c) src) w st p = sobelAt hypot atan2 src w st p.
Proof.
  unfold sobelAt. destruct st as [st |]; [| done].
  change (Some st ≫= ?f) with (f st). cbv beta.
  rewrite (mapM_rd_map (Z.add c) src (fun o => (p.1 + o.1) * w + (p.2 + o.2))).
  destruct (mapM _ window) as [vs |] eqn:E; [| done].
  assert (length vs = 9%nat) as HL by (apply length_mapM in E; by rewrite <- E).
  change (map (Z.add c) <$> Some vs) with (Some (map (Z.add c) vs)).
  change (Some ?x ≫= ?f) with (f x). cbv beta.
  by rewrite dot_gx_shift, dot_gy_shift.
Qed.

(** X9.  The Sobel stage does not see overall brightness: adding the same
    constant to every pixel of its input leaves both of its results, the
    magnitudes and the angles, unchanged. *)
Theorem sobel_ignores_brightness c src w h :
  sobel hypot atan2 (map (Z.add c) src) w h = sobel hypot atan2 src w h.
Proof.
  unfold sobel. apply foldl_agree. intros st p _. apply sobelAt_shift.
Qed.

Lemma window_in_bounds w h y x o :
  (y, x) ∈ interior w h -> o ∈ window ->
  0 <= (y + o.1) * w + (x + o.2) < w * h.
Proof.
  intros Hin Ho. apply elem_of_interior in Hin.
  assert (-1 <= o.1 <= 1 /\ -1 <= o.2 <= 1) as [H1 H2].
  { unfold window in Ho. repeat (apply elem_of_cons in Ho as [-> | Ho]; [simpl; lia |]).
    by apply not_elem_of_nil in Ho. }
  nia.
Qed.

Lemma sobelAt_ok src w h st p :
  w * h <= Z.of_nat (length src) -> p ∈ interior w h ->
  sobel_ok w h st -> sobel_ok w h (sobelAt hypot atan2 src w st p).
Proof.
  intros Hlen Hp (mag & ang & -> & Hm & Ha & Hz). unfold sobelAt.
  change (Some (mag, ang) ≫= ?f) with (f (mag, ang)). cbv beta.
  destruct (mapM_is_Some_2 (fun o => rd src ((p.1 + o.1) * w + (p.2 + o.2))) window) as [vs ->].
  { apply list.Forall_forall. intros o Ho. apply rd_in_range. destruct p as [y x].
    pose proof (window_in_bounds w h y x o Hp Ho). simpl. lia. }
  change (Some vs ≫= ?f) with (f vs). cbv beta. simpl fst. simpl snd.
  eexists _, _. split; [done |]. rewrite !length_wr. do 2 (split; [done |]).
  intros j Hj Hr. destruct (Hz j Hj Hr) as [E1 E2].
  rewrite !rd_wr_ne; [done | |]; intros <-; by apply (Hj p).
Qed.

(** X10.  On a buffer that holds at least [w * h] pixels the Sobel stage
    reads no pixel outside it: it returns two buffers of [w * h] cells, and
    the cells of the one-pixel border, which its loops skip, hold 0. *)
Theorem sobel_in_bounds src w h :
  w * h <= Z.of_nat (length src) ->
  exists mag ang, sobel hypot atan2 src w h = Some (mag, ang) /\
    length mag = Z.to_nat (w * h) /\ length ang = Z.to_nat (w * h) /\
    forall y x, onBorder w h y x ->
      rd mag (y * w + x) = Some 0%Q /\ rd ang (y * w + x) = Some 0%Q.
Proof.
  intros Hlen. unfold sobel.
  assert (forall l st, (forall p, p ∈ l -> p ∈ interior w h) -> sobel_ok w h st ->
            sobel_ok w h (foldl (sobelAt hypot atan2 src w) st l)) as Hfold.
  { induction l as [| p l IH]; intros st Hl Hok; simpl; [done |].
    apply IH; [intros; apply Hl; by right |].
    apply sobelAt_ok; [done | apply Hl; by left | done]. }
  destruct (Hfold (interior w h) (Some (zeros w h, zeros w h))) as (mag & ang & E & Hm & Ha & Hz);
    [auto | |].
  { eexists _, _. split; [done |]. unfold zeros. rewrite !length_replicate.
    do 2 (split; [done |]). intros j _ Hj. rewrite rd_replicate by lia. done. }
  exists mag, ang. rewrite E. do 3 (split; [done |]).
  intros y x Hb. apply Hz.
  - intros q Hq. by apply (border_not_interior w h).
  - destruct Hb as (Hx & Hy & _). nia.
Qed.

End SobelFacts.

Lemma sobel_in_bounds_witness :
  exists mag ang, sobel taxicab (fun _ _ => 0%Q) (replicate 16 7) 4 4 = Some (mag, ang) /\
    length mag = Z.to_nat (4 * 4) /\ length ang = Z.to_nat (4 * 4) /\
    forall y x, onBorder 4 4 y x ->
      rd mag (y * 4 + x) = Some 0%Q /\ rd ang (y * 4 + x) = Some 0%Q.
Proof.
  apply (sobel_in_bounds taxicab (fun _ _ => 0%Q) (replicate 16 7) 4 4). simpl. lia.
Defined.

End EdgeFacts.

(** ** Dominant colours *)
Section PaletteFacts.
Import Palette.

(** *** The de-duplication filter of [getDominantHexes] *)

Lemma similarHex_self a tol : similarHex a a tol = false.
Proof.
  unfold similarHex. destruct (hexToRgb a) as [[[x |] [y |]] [z |]]; try done.
  rewrite !Z.sub_diag, Z.gtb_ltb. apply Z.ltb_ge. nia.
Qed.

Lemma findIndex_hit {A} (p : A -> bool) arr : forall n,
  findIndex p arr = Z.of_nat n -> exists x, arr !! n = Some x /\ p x = true.
Proof.
  induction arr as [| x arr IH]; intros n; simpl; [lia |].
  destruct (p x) eqn:Hp.
  - intros H. assert (n = 0%nat) as -> by lia. by exists x.
  - destruct (Z.eqb_spec (findIndex p arr) (-1)); [lia |].
    intros H. destruct n as [| n]; [lia |]. apply IH. lia.
Qed.

Lemma filter_none {A} (P : A -> Prop) `{!forall x, Decision (P x)} (l : list A) :
  (forall x, x ∈ l -> ~ P x) -> filter P l = [].
Proof.
  induction l as [| x l IH]; intros Hl; [done |].
  rewrite filter_cons_False by (apply Hl; by left).
  apply IH. intros y Hy. apply Hl. by right.
Qed.

(** No entry survives the filter: an entry is kept only when it is itself the
    first entry further than the tolerance from it. *)
Lemma dedupe_nil arr : dedupe arr = [].
Proof.
  unfold dedupe.
  assert (filter (fun p => p.1 =? findIndex (fun h => similarHex p.2 h 8) arr)
            (indexed arr) = []) as ->; [| done].
  apply filter_none. intros [i hex] Hin Hkeep.
  apply elem_of_lookup_imap in Hin as (n & x & [= -> ->] & Hn). simpl in Hkeep.
  apply Is_true_true, Z.eqb_eq in Hkeep. symmetry in Hkeep.
  apply findIndex_hit in Hkeep as (y & Hy & Hs).
  rewrite Hn in Hy. injection Hy as <-. by rewrite similarHex_self in Hs.
Qed.

Lemma slice0_nil {A} n : slice0 n (@nil A) = [].
Proof. unfold slice0. destruct (n <? 0); by rewrite take_nil. Qed.

(** X12.  Whatever the image and the draws, a run of [getDominantHexes] that
    returns returns no colour at all: the de-duplication filter keeps no
    entry. *)
Theorem getDominantHexes_empty fuel rnd pixels w h k hexes :
  getDominantHexes fuel rnd pixels w h k = Done hexes -> hexes = [].
Proof.
  unfold getDominantHexes.
  destruct (kmeansPP _ _ _ _) as [centers | |]; simpl; try discriminate.
  rewrite dedupe_nil, slice0_nil. by intros [= <-].
Qed.

Lemma getDominantHexes_empty_witness :
  exists hexes,
    getDominantHexes 20 (fun _ => 0)%Q three_pixels 3 1 2 = Done hexes /\ hexes = [].
Proof.
  assert (getDominantHexes 20 (fun _ => 0)%Q three_pixels 3 1 2 = Done []) as E
    by (vm_compute; reflexivity).
  exists []. split; [exact E |].
  exact (getDominantHexes_empty 20 (fun _ => 0)%Q three_pixels 3 1 2 [] E).
Defined.

(** The image of one pixel [#336699], asked for one colour. *)
Lemma one_pixel_336699 :
  rgbToHex (mkRGB 51 102 153) = "#336699"%string /\
  getDominantHexes 0 (fun _ => 1 # 2)%Q (solid 51 102 153 1) 1 1 1 = Done [].
Proof. split; reflexivity. Qed.

(** C2, as the code behaves.  The filter after the sort keeps nothing: not the
    first occurrence of a hex, and not the hex of the heaviest cluster. *)
Theorem dedupe_drops_every_hex (centers : list Center) :
  dedupe (map (fun c => rgbToHex (rgb c)) (byWeight centers)) = [].
Proof. apply dedupe_nil. Qed.

Lemma no_samples_no_hexes fuel rnd pixels w h k :
  omap keep (samplePixels pixels w h) = [] ->
  getDominantHexes fuel rnd pixels w h k = Done [].
Proof.
  intros E. unfold getDominantHexes. rewrite E.
  change (Done (slice0 (Z.max 3 k) (@nil string)) = Done []).
  by rewrite slice0_nil.
Qed.

(** C3.  When the noise filter removes every sample, [kmeansPP] returns the
    empty list at its first line and the extraction returns the empty list: the
    run neither spins nor meets a division by zero or a NaN. *)
Theorem all_filtered_returns_empty fuel rnd pixels w h k :
  omap keep (samplePixels pixels w h) = [] ->
  kmeansPP fuel rnd (omap keep (samplePixels pixels w h))
           (Z.min k (Z.max 3 (0 / 200))) = Done [] /\
  getDominantHexes fuel rnd pixels w h k = Done [].
Proof.
  intros E. split; [by rewrite E | by apply no_samples_no_hexes].
Qed.

Lemma all_filtered_returns_empty_witness :
  omap keep (samplePixels blank_pixels 3 1) = [] /\
  getDominantHexes 0 (fun _ => 1 # 2)%Q blank_pixels 3 1 10 = Done [].
Proof.
  split; [reflexivity |].
  apply (all_filtered_returns_empty 0 (fun _ => 1 # 2)%Q blank_pixels 3 1 10).
  reflexivity.
Defined.

(** *** Randomness *)



Lemma length_grid w h : 0 <= w -> 0 <= h ->
  length (EdgeMap.grid w h) = Z.to_nat (w * h).
Proof.
  intros Hw Hh. unfold EdgeMap.grid.
  assert (forall l : list Z,
    length (y ← l; x ← seqZ 0 w; [(y, x)]) = (length l * Z.to_nat w)%nat) as H.
  { induction l as [| y l IH]; [done |]. csimpl.
    rewrite length_app, IH.
    assert (length (x ← seqZ 0 w; [(y, x)]) = Z.to_nat w) as ->; [| simpl; lia].
    generalize (seqZ 0 w) (length_seqZ 0 w). intros s <-.
    induction s as [| x s IHs]; [done |]. csimpl. f_equal. exact IHs. }
  rewrite H, length_seqZ. lia.
Qed.

Lemma solid_lookup cr cg cb n : forall j, (j < n)%nat ->
  solid cr cg cb n !! (4 * j)%nat = Some cr /\
  solid cr cg cb n !! (4 * j + 1)%nat = Some cg /\
  solid cr cg cb n !! (4 * j + 2)%nat = Some cb /\
  solid cr cg cb n !! (4 * j + 3)%nat = Some 255.
Proof.
  induction n as [| n IH]; intros j Hj; [lia |].
  destruct j as [| j]; [done |].
  replace (4 * S j)%nat with (S (S (S (S (4 * j))))) by lia.
  apply (IH j). lia.
Qed.

Lemma sampleAt_solid cr cg cb w h y x :
  (y, x) ∈ EdgeMap.grid w h ->
  sampleAt (solid cr cg cb (Z.to_nat (w * h))) w (y, x) = Some (Some cr, Some cg, Some cb).
Proof.
  intros Hin. apply elem_of_grid in Hin as [Hy Hx]. unfold sampleAt.
  cbn [fst snd].
  assert ((Z.to_nat (y * w + x) < Z.to_nat (w * h))%nat) as Hj by nia.
  destruct (solid_lookup cr cg cb _ _ Hj) as (H0 & H1 & H2 & H3).
  assert (0 <= y * w + x) as Hnn by nia.
  set (raw := solid cr cg cb (Z.to_nat (w * h))) in *.
  set (j := Z.to_nat (y * w + x)) in *.
  assert (Z.of_nat j = y * w + x) as Hjz by (unfold j; lia).
  assert (rd raw ((y * w + x) * 4) = raw !! (4 * j)%nat) as E0
    by (rewrite <- rd_of_nat; f_equal; lia).
  assert (rd raw ((y * w + x) * 4 + 1) = raw !! (4 * j + 1)%nat) as E1
    by (rewrite <- rd_of_nat; f_equal; lia).
  assert (rd raw ((y * w + x) * 4 + 2) = raw !! (4 * j + 2)%nat) as E2
    by (rewrite <- rd_of_nat; f_equal; lia).
  assert (rd raw ((y * w + x) * 4 + 3) = raw !! (4 * j + 3)%nat) as E3
    by (rewrite <- rd_of_nat; f_equal; lia).
  rewrite E0, E1, E2, E3, H0, H1, H2, H3. reflexivity.
Qed.

Lemma omap_const {A B} (f : A -> option B) (t : B) (l : list A) :
  (forall p, p ∈ l -> f p = Some t) -> omap f l = replicate (length l) t.
Proof.
  induction l as [| p l IH]; intros H; [done |]. cbn.
  rewrite (H p) by (by left). f_equal. apply IH. intros q Hq. apply H. by right.
Qed.

(** Sampling an opaque image of one colour yields that colour once per pixel. *)
Lemma samplePixels_solid cr cg cb w h :
  0 <= w -> 0 <= h ->
  samplePixels (solid cr cg cb (Z.to_nat (w * h))) w h
  = replicate (Z.to_nat (w * h)) (Some cr, Some cg, Some cb).
Proof.
  intros Hw Hh. unfold samplePixels.
  rewrite <- (length_grid w h Hw Hh) at 2.
  apply omap_const. intros [y x] Hin. by apply sampleAt_solid.
Qed.

Lemma filtered_solid cr cg cb w h :
  0 <= w -> 0 <= h ->
  omap keep (samplePixels (solid cr cg cb (Z.to_nat (w * h))) w h)
  = if keepColor cr cg cb
    then replicate (Z.to_nat (w * h)) (mkRGB (inject_Z cr) (inject_Z cg) (inject_Z cb))
    else [].
Proof.
  intros Hw Hh. rewrite samplePixels_solid by done.
  generalize (Z.to_nat (w * h)). intros n.
  induction n as [| n IH]; [by destruct (keepColor cr cg cb) |].
  cbn. destruct (keepColor cr cg cb); [by rewrite IH | exact IH].
Qed.

(** *** The seeding loop and the guarded divisions *)

Lemma toInt32_index (q : Q) (N : Z) :
  (0 <= q)%Q -> (q < inject_Z N)%Q -> N <= 2 ^ 31 -> 0 <= EdgeMap.toInt32 q < N.
Proof.
  destruct q as [n d]. unfold Qle, Qlt, EdgeMap.toInt32. simpl. intros H0 HN Hbig.
  rewrite Z.mul_1_r in H0, HN.
  assert (0 <= Z.quot n (Z.pos d) < N) as Hq.
  { rewrite Z.quot_div_nonneg by lia. split; [apply Z.div_pos; lia |].
    apply Z.div_lt_upper_bound; lia. }
  rewrite Z.mod_small by lia. lia.
Qed.

Lemma first_draw_index (rnd : draws) (n : nat) :
  unit_draws rnd -> (0 < n)%nat -> Z.of_nat n <= 2 ^ 31 ->
  0 <= EdgeMap.toInt32 (rnd 0%nat * inject_Z (Z.of_nat n)) < Z.of_nat n.
Proof.
  intros Hu Hn Hbig. destruct (Hu 0%nat) as [H0 H1].
  assert (0 < inject_Z (Z.of_nat n))%Q as Hpos.
  { rewrite <- (Zlt_Qlt 0). lia. }
  apply toInt32_index; [| | done].
  - apply Qmult_le_0_compat; [done | by apply Qlt_le_weak].
  - rewrite <- (Qmult_1_l (inject_Z (Z.of_nat n))) at 2.
    by apply Qmult_lt_compat_r.
Qed.

Lemma recenter_no_fault c s : recenter c s <> Fault.
Proof.
  unfold recenter. destruct (Qlt_bool 0 (sum_w s)) eqn:E; [| done].
  apply Qlt_bool_iff in E. unfold qdiv.
  assert (Qeq_bool (sum_w s) 0 = false) as ->.
  { destruct (Qeq_bool (sum_w s) 0) eqn:E0; [| done].
    apply Qeq_bool_iff in E0. rewrite E0 in E. by apply Qlt_irrefl in E. }
  done.
Qed.

Lemma recenter_done c s : exists c', recenter c s = Done c'.
Proof.
  pose proof (recenter_no_fault c s) as H. unfold recenter in *.
  destruct (Qlt_bool 0 (sum_w s)); [| by eexists].
  unfold qdiv in *. destruct (Qeq_bool (sum_w s) 0); [done | by eexists].
Qed.

Lemma ozip_recenter_done centers sums : exists r, ozip recenter centers sums = Done r.
Proof.
  revert sums. induction centers as [| c centers IH]; intros [| s sums]; simpl; try by eexists.
  destruct (recenter_done c s) as [c' ->]. destruct (IH sums) as [r ->]. by eexists.
Qed.

Lemma lloyd_done iters points centers : exists r, lloyd iters points centers = Done r.
Proof.
  revert centers. induction iters as [| iters IH]; intros centers; simpl; [by eexists |].
  unfold lloydStep. destruct (ozip_recenter_done centers
    (foldl (assign centers) (map (fun _ => mkSums 0 0 0 0) centers) points)) as [r ->].
  apply IH.
Qed.

Lemma seed_no_fault fuel rnd points k : forall n centers,
  seed fuel rnd n points k centers <> Fault.
Proof.
  induction fuel as [| fuel IH]; intros n centers; simpl;
    destruct (Z.of_nat (length centers) <? k); try done.
  destruct (pick _ _ points); apply IH.
Qed.

(** X2.  Every division of the clustering is guarded: with draws in [0, 1)
    a run of [kmeansPP] never divides by zero and never reads a point that is
    not there. *)
Theorem kmeansPP_no_fault fuel rnd points k :
  unit_draws rnd -> Z.of_nat (length points) <= 2 ^ 31 ->
  kmeansPP fuel rnd points k <> Fault.
Proof.
  intros Hu Hbig. unfold kmeansPP.
  destruct (Nat.eqb_spec (length points) 0) as [| Hn]; [done |].
  destruct (rd_in_range points (EdgeMap.toInt32 (rnd 0%nat * inject_Z (Z.of_nat (length points)))))
    as [p0 ->]; [apply first_draw_index; [done | lia | done] |].
  pose proof (seed_no_fault fuel rnd points k 1 [mkCenter p0 1]) as Hs.
  destruct (seed fuel rnd 1 points k [mkCenter p0 1]) as [c | |]; [| done..].
  change (lloyd 8 points c <> Fault).
  destruct (lloyd_done 8 points c) as [r ->]. done.
Qed.

Lemma Qsum_zeros (l : list Q) : Forall (fun d => d == 0)%Q l -> (EdgeMap.Qsum l == 0)%Q.
Proof.
  unfold EdgeMap.Qsum. assert (forall a, Forall (fun d => d == 0)%Q l ->
    (foldl Qplus a l == a)%Q) as H; [| intros; by apply H].
  induction l as [| d l IH]; intros a Hl; simpl; [reflexivity |].
  inversion Hl as [| ? ? Hd Hl']; subst. rewrite IH by done. rewrite Hd. ring.
Qed.

Lemma pick_none (rr : Q) dists (points : list RGB) :
  (0 < rr)%Q -> Forall (fun d => d == 0)%Q dists -> pick rr dists points = None.
Proof.
  intros Hr Hd. revert rr Hr points.
  induction Hd as [| d dists Hd0 _ IH]; intros rr Hr [| p points]; simpl; try done.
  assert (0 < rr - d)%Q as Hr' by (rewrite Hd0; ring_simplify; done).
  destruct (Qle_bool (rr - d) 0) eqn:E; [| by apply IH].
  apply Qle_bool_iff in E. exfalso. eapply Qlt_not_le; eauto.
Qed.

Lemma dist2_self p : (dist2 p p == 0)%Q.
Proof. unfold dist2. ring. Qed.

Lemma kmeansPP_no_fault_witness :
  kmeansPP 20 (fun _ => 9 # 10)%Q [mkRGB 0 0 0; mkRGB 100 100 100; mkRGB 200 200 200] 2
  <> Fault.
Proof.
  apply (kmeansPP_no_fault 20 (fun _ => 9 # 10)%Q); [| simpl; lia].
  intros n. split; discriminate || reflexivity.
Defined.

(** With one colour among the points and a seed of that colour, every
    distance is zero, and a positive draw never selects a point. *)
Lemma seed_spins fuel (rnd : draws) p m k :
  (forall n, 0 < rnd n)%Q -> 2 <= k ->
  forall n, seed fuel rnd n (replicate m p) k [mkCenter p 1] = Spin.
Proof.
  intros Hpos Hk.
  assert ((Z.of_nat (length [mkCenter p 1]) <? k) = true) as Hlt
    by (apply Z.ltb_lt; simpl; lia).
  induction fuel as [| fuel IH]; intros n; cbn [seed]; rewrite Hlt; [done |].
  set (dists := map _ (replicate m p)).
  assert (Forall (fun d => d == 0)%Q dists) as Hz.
  { unfold dists. apply list.Forall_forall. intros d Hd.
    apply list_elem_of_fmap in Hd as (q & -> & Hq).
    apply elem_of_replicate in Hq as [-> _]. simpl. apply dist2_self. }
  assert (Qeq_bool (EdgeMap.Qsum dists) 0 = true) as ->
    by (apply Qeq_bool_iff; by apply Qsum_zeros).
  rewrite pick_none; [apply IH | | done].
  rewrite Qmult_1_r. apply Hpos.
Qed.

(** X1.  For a solid colour that passes the noise filter and [k >= 2], the
    seeding loop of [kmeansPP] never ends unless [Math.random()] returns
    exactly 0: whatever the fuel, the run is still in the loop. *)
Theorem solid_color_seeding_spins fuel (rnd : draws) cr cg cb w h k :
  0 < w -> 0 < h -> w * h <= 2 ^ 31 ->
  keepColor cr cg cb = true -> 2 <= k ->
  (forall n, 0 < rnd n /\ rnd n < 1)%Q ->
  getDominantHexes fuel rnd (solid cr cg cb (Z.to_nat (w * h))) w h k = Spin.
Proof.
  intros Hw Hh Hbig Hkeep Hk Hr. unfold getDominantHexes.
  rewrite filtered_solid, Hkeep by lia.
  set (p := mkRGB (inject_Z cr) (inject_Z cg) (inject_Z cb)).
  set (m := Z.to_nat (w * h)).
  assert (0 < m)%nat as Hm by (unfold m; nia).
  rewrite length_replicate. unfold kmeansPP. rewrite length_replicate.
  destruct (Nat.eqb_spec m 0); [lia |].
  assert (unit_draws rnd) as Hu.
  { intros i. destruct (Hr i). split; [by apply Qlt_le_weak | done]. }
  destruct (rd_in_range (replicate m p) (EdgeMap.toInt32 (rnd 0%nat * inject_Z (Z.of_nat m))))
    as [p0 E].
  { rewrite length_replicate. apply first_draw_index; [done | done | lia]. }
  rewrite E. unfold rd in E. destruct (_ <? 0) in E; [done |].
  apply lookup_replicate in E as [-> _].
  rewrite seed_spins; [done | intros i; apply Hr |].
  pose proof (Z.div_pos (Z.of_nat m) 200). lia.
Qed.

Lemma solid_color_seeding_spins_witness :
  getDominantHexes 1000 (fun _ => 1 # 2)%Q (solid 51 102 153 (Z.to_nat (2 * 2))) 2 2 10 = Spin.
Proof.
  apply (solid_color_seeding_spins 1000 (fun _ => 1 # 2)%Q 51 102 153 2 2 10);
    try lia; [reflexivity |].
  intros n. split; reflexivity.
Defined.

(** *** Hex strings and back *)

Lemma bytes_twoDigits : forallb twoDigits (seqZ 0 256) = true.
Proof. vm_compute. reflexivity. Qed.

Lemma byte_prints n : 0 <= n <= 255 ->
  exists c1 c2, padStart2 (toString16 n) = String c1 (String c2 EmptyString) /\
    parseInt16 (String (upperChar c1) (String (upperChar c2) EmptyString)) = Some n.
Proof.
  intros Hn. pose proof bytes_twoDigits as H. rewrite forallb_forall in H.
  assert (In n (seqZ 0 256)) as Hin by (apply list_elem_of_In, elem_of_seqZ; lia).
  specialize (H n Hin). unfold twoDigits in H.
  destruct (padStart2 (toString16 n)) as [| c1 [| c2 [| ? ?]]]; try discriminate H.
  exists c1, c2. split; [done |].
  destruct (parseInt16 _) as [m |]; [| done].
  apply Z.eqb_eq in H. by subst.
Qed.

Lemma clamp_byte n : 0 <= clamp n 0 255 <= 255.
Proof. unfold clamp. lia. Qed.

(** X11.  [rgbToHex] always yields [#] and six digits, and [hexToRgb] reads
    back from them each channel rounded to the nearest integer and clamped
    to [0..255]. *)
Theorem rgbToHex_round_trip (c : RGB) :
  String.length (rgbToHex c) = 7%nat /\
  hexToRgb (rgbToHex c)
  = (Some (clamp (round (r c)) 0 255), Some (clamp (round (g c)) 0 255),
     Some (clamp (round (b c)) 0 255)).
Proof.
  unfold rgbToHex.
  destruct (byte_prints _ (clamp_byte (round (r c)))) as (r1 & r2 & Er & Pr).
  destruct (byte_prints _ (clamp_byte (round (g c)))) as (g1 & g2 & Eg & Pg).
  destruct (byte_prints _ (clamp_byte (round (b c)))) as (b1 & b2 & Eb & Pb).
  cbn [map String.concat]. rewrite Er, Eg, Eb. cbn [append toUpperCase String.length].
  split; [done |].
  unfold hexToRgb. cbn [dropHash]. rewrite Ascii.eqb_refl.
  cbn [String.length Nat.eqb sliceStr substring Nat.sub].
  by rewrite Pr, Pg, Pb.
Qed.

(** *** The noise filter on greys *)

(** X15.  A grey pixel, one with three equal channels [v], survives the noise
    filter of [getDominantHexes] exactly when [30 < v < 230]. *)
Theorem grey_band (v : Z) :
  keepColor v v v = (30 <? v) && (v <? 230).
Proof.
  unfold keepColor. rewrite !Z.max_id, !Z.min_id, Z.sub_diag.
  destruct (Z.ltb_spec 30 v), (Z.ltb_spec v 230), (Z.gtb_spec v 245), (Z.ltb_spec v 10),
    (Z.gtb_spec v 30); simpl; try lia; reflexivity.
Qed.

(** *** The clusters [kmeansPP] returns *)

Lemma seed_length fuel rnd points k : forall n centers r,
  seed fuel rnd n points k centers = Done r ->
  Z.of_nat (length r) = Z.max (Z.of_nat (length centers)) k.
Proof.
  induction fuel as [| fuel IH]; intros n centers r; cbn [seed];
    destruct (Z.ltb_spec (Z.of_nat (length centers)) k) as [Hlt | Hge];
    try discriminate; try (intros [= <-]; lia).
  destruct (pick _ _ points) as [p |]; intros H; apply IH in H.
  - rewrite length_app in H. simpl in H. lia.
  - done.
Qed.

Lemma length_ozip {A B C} (f : A -> B -> outcome C) l : forall m r,
  length m = length l -> ozip f l m = Done r -> length r = length l.
Proof.
  induction l as [| a l IH]; intros [| b m] r HL; simpl in *; try discriminate.
  - by intros [= <-].
  - destruct (f a b) as [c | |]; try discriminate. simpl.
    destruct (ozip f l m) as [r' | |] eqn:E; try discriminate. simpl.
    intros [= <-]. simpl. f_equal. eapply IH; [| exact E]. lia.
Qed.

Lemma length_assigned centers points : forall sums,
  length (foldl (assign centers) sums points) = length sums.
Proof.
  induction points as [| p points IH]; intros sums; simpl; [done |].
  rewrite IH. unfold assign. apply length_alter.
Qed.

Lemma lloydStep_length points centers r :
  lloydStep points centers = Done r -> length r = length centers.
Proof.
  unfold lloydStep. apply length_ozip. by rewrite length_assigned, length_map.
Qed.

Lemma lloyd_length iters points : forall centers r,
  lloyd iters points centers = Done r -> length r = length centers.
Proof.
  induction iters as [| iters IH]; intros centers r; simpl; [by intros [= <-] |].
  destruct (lloydStep points centers) as [c | |] eqn:E; try discriminate. simpl.
  intros H. apply IH in H. apply lloydStep_length in E. congruence.
Qed.

Lemma three_greys_cluster :
  kmeansPP 20 (fun _ => 9 # 10)%Q [mkRGB 0 0 0; mkRGB 100 100 100; mkRGB 200 200 200] 2
  = Done [mkCenter (mkRGB 200 200 200) 1;
          mkCenter (mkRGB (100 # 2) (100 # 2) (100 # 2)) 2].
Proof. vm_compute. reflexivity. Qed.

(** X13.  A run of [kmeansPP] that returns gives no centre for no points and
    otherwise exactly [max(1, k)] centres: one even when [k] is 0 or
    negative, never fewer than [k] (coincident centres are kept) and never
    more. *)
Theorem kmeansPP_center_count fuel rnd points k centers :
  kmeansPP fuel rnd points k = Done centers ->
  Z.of_nat (length centers) = if (length points =? 0)%nat then 0 else Z.max 1 k.
Proof.
  unfold kmeansPP. destruct (length points =? 0)%nat; [by intros [= <-] |].
  destruct (rd points _) as [p0 |]; [| discriminate].
  destruct (seed fuel rnd 1 points k [mkCenter p0 1]) as [c | |] eqn:E; try discriminate.
  change (lloyd 8 points c = Done centers -> Z.of_nat (length centers) = Z.max 1 k).
  intros H. apply lloyd_length in H. apply seed_length in E. simpl in E. lia.
Qed.

Lemma kmeansPP_center_count_witness :
  exists centers,
    kmeansPP 20 (fun _ => 9 # 10)%Q [mkRGB 0 0 0; mkRGB 100 100 100; mkRGB 200 200 200] 2
    = Done centers /\ Z.of_nat (length centers) = Z.max 1 2.
Proof.
  eexists. split; [exact three_greys_cluster |].
  exact (kmeansPP_center_count _ _ _ _ _ three_greys_cluster).
Defined.

Lemma addPoint_cube p s : inCube p -> cubeSums s -> cubeSums (addPoint p s).
Proof.
  unfold inCube, cubeSums, addPoint. simpl. intros. repeat split; Lqa.lra.
Qed.

Lemma assigned_cube centers points : forall sums,
  Forall inCube points -> Forall cubeSums sums ->
  Forall cubeSums (foldl (assign centers) sums points).
Proof.
  induction points as [| p points IH]; intros sums Hp Hs; simpl; [done |].
  inversion Hp; subst. apply IH; [done |].
  unfold assign. apply Forall_alter; [done |]. intros s _ Hs'. by apply addPoint_cube.
Qed.

Lemma recenter_cube c s c' :
  goodCenter c -> cubeSums s -> recenter c s = Done c' -> goodCenter c'.
Proof.
  unfold recenter. intros Hc Hs. destruct (Qlt_bool 0 (sum_w s)) eqn:E; [| by intros [= <-]].
  apply Qlt_bool_iff in E. unfold qdiv. destruct (Qeq_bool (sum_w s) 0); [discriminate |].
  simpl. intros [= <-]. destruct Hs as (_ & [? ?] & [? ?] & [? ?]).
  split; [| done]. unfold inCube. simpl.
  repeat split; (apply Qle_shift_div_l; [done | by rewrite Qmult_0_l])
             || (by apply Qle_shift_div_r).
Qed.

Lemma ozip_cube centers : forall sums r,
  Forall goodCenter centers -> Forall cubeSums sums ->
  ozip recenter centers sums = Done r -> Forall goodCenter r.
Proof.
  induction centers as [| c centers IH]; intros [| s sums] r Hc Hs; simpl;
    try (intros [= <-]; constructor).
  inversion Hc; inversion Hs; subst.
  destruct (recenter c s) as [c' | |] eqn:E; try discriminate. simpl.
  destruct (ozip recenter centers sums) as [r' | |] eqn:E'; try discriminate. simpl.
  intros [= <-]. constructor; [by eapply recenter_cube | by eapply IH].
Qed.

Lemma lloyd_cube iters points : forall centers r,
  Forall inCube points -> Forall goodCenter centers ->
  lloyd iters points centers = Done r -> Forall goodCenter r.
Proof.
  induction iters as [| iters IH]; intros centers r Hp Hc; simpl; [by intros [= <-] |].
  destruct (lloydStep points centers) as [c | |] eqn:E; try discriminate. simpl.
  apply IH; [done |]. unfold lloydStep in E.
  eapply ozip_cube; [exact Hc | | exact E].
  apply assigned_cube; [done |]. apply list.Forall_forall. intros s Hs.
  apply list_elem_of_fmap in Hs as (? & -> & _). unfold cubeSums. simpl. repeat split; done.
Qed.

Lemma pick_elem rr dists points p :
  pick rr dists points = Some p -> p ∈ points.
Proof.
  revert rr points. induction dists as [| d dists IH]; intros rr [| q points]; simpl; try done.
  destruct (Qle_bool (rr - d) 0); [intros [= ->]; by left |].
  intros H. right. by eapply IH.
Qed.

Lemma seed_cube fuel rnd points k : forall n centers r,
  Forall inCube points -> Forall goodCenter centers ->
  seed fuel rnd n points k centers = Done r -> Forall goodCenter r.
Proof.
  induction fuel as [| fuel IH]; intros n centers r Hp Hc; cbn [seed];
    destruct (Z.of_nat (length centers) <? k); try discriminate; try by intros [= <-].
  destruct (pick _ _ points) as [p |] eqn:E; [| by apply IH].
  apply IH; [done |]. apply Forall_app. split; [done |].
  constructor; [| done]. split; [| done]. simpl.
  rewrite list.Forall_forall in Hp. apply Hp. by eapply pick_elem.
Qed.

(** X14.  When every point lies in the sRGB cube (each channel in
    [0..255]), so does every centre [kmeansPP] returns, and every centre
    carries a positive weight: [rgbToHex] never has to clamp a centre. *)
Theorem kmeansPP_centers_in_cube fuel rnd points k centers :
  Forall inCube points ->
  kmeansPP fuel rnd points k = Done centers ->
  Forall (fun c => inCube (rgb c) /\ (0 < weight c)%Q) centers.
Proof.
  intros Hp. unfold kmeansPP. destruct (length points =? 0)%nat; [by intros [= <-] |].
  destruct (rd points _) as [p0 |] eqn:E0; [| discriminate].
  destruct (seed fuel rnd 1 points k [mkCenter p0 1]) as [c | |] eqn:E; try discriminate.
  change (lloyd 8 points c = Done centers -> Forall goodCenter centers).
  apply lloyd_cube; [done |]. eapply seed_cube; [done | | exact E].
  constructor; [| done]. split; [| done]. simpl.
  rewrite list.Forall_forall in Hp. apply Hp.
  unfold rd in E0. destruct (_ <? 0); [done |]. by eapply list_elem_of_lookup_2.
Qed.

Lemma kmeansPP_centers_in_cube_witness :
  exists centers,
    kmeansPP 20 (fun _ => 9 # 10)%Q [mkRGB 0 0 0; mkRGB 100 100 100; mkRGB 200 200 200] 2
    = Done centers /\
    Forall (fun c => inCube (rgb c) /\ (0 < weight c)%Q) centers.
Proof.
  eexists. split; [exact three_greys_cluster |].
  refine (kmeansPP_centers_in_cube 20 (fun _ => 9 # 10)%Q _ 2 _ _ three_greys_cluster).
  repeat constructor; simpl; discriminate.
Defined.

(** *** One cluster, and an image of one colour *)







(** The seeding loop is not entered when there are centres enough. *)
Lemma seed_enough fuel rnd n points k centers :
  k <= Z.of_nat (length centers) -> seed fuel rnd n points k centers = Done centers.
Proof.
  intros Hk. destruct fuel; cbn [seed];
    destruct (Z.ltb_spec (Z.of_nat (length centers)) k); try lia; reflexivity.
Qed.



(** On points of one colour, with two clusters or more asked for and no draw
    equal to 0, the seeding loop is never left. *)
Lemma kmeansPP_solid_spins fuel (rnd : draws) p m k :
  (0 < m)%nat -> Z.of_nat m <= 2 ^ 31 -> 2 <= k ->
  (forall n, 0 < rnd n /\ rnd n < 1)%Q ->
  kmeansPP fuel rnd (replicate m p) k = Spin.
Proof.
  intros Hm Hbig Hk Hr. unfold kmeansPP. rewrite length_replicate.
  destruct (Nat.eqb_spec m 0); [lia |].
  assert (unit_draws rnd) as Hu.
  { intros i. destruct (Hr i). split; [by apply Qlt_le_weak | done]. }
  destruct (rd_in_range (replicate m p) (EdgeMap.toInt32 (rnd 0%nat * inject_Z (Z.of_nat m))))
    as [p0 E].
  { rewrite length_replicate. apply first_draw_index; [done | done | lia]. }
  rewrite E. unfold rd in E. destruct (_ <? 0) in E; [done |].
  apply lookup_replicate in E as [-> _].
  rewrite seed_spins; [done | intros i; apply Hr | done].
Qed.

(** With one cluster asked for the seeding loop is skipped, and the run
    returns. *)
Lemma kmeansPP_one_returns fuel (rnd : draws) points k :
  unit_draws rnd -> Z.of_nat (length points) <= 2 ^ 31 -> k <= 1 ->
  exists c, kmeansPP fuel rnd points k = Done c.
Proof.
  intros Hu Hbig Hk. unfold kmeansPP.
  destruct (Nat.eqb_spec (length points) 0) as [| Hn]; [by eexists |].
  destruct (rd_in_range points (EdgeMap.toInt32 (rnd 0%nat * inject_Z (Z.of_nat (length points)))))
    as [p0 ->]; [apply first_draw_index; [done | lia | done] |].
  rewrite seed_enough by (simpl; lia).
  change (exists r, lloyd 8 points [mkCenter p0 1] = Done r). apply lloyd_done.
Qed.

Lemma kmeansPP_done_or_spin fuel (rnd : draws) points k :
  unit_draws rnd -> Z.of_nat (length points) <= 2 ^ 31 ->
  (exists c, kmeansPP fuel rnd points k = Done c) \/ kmeansPP fuel rnd points k = Spin.
Proof.
  intros Hu Hbig. unfold kmeansPP.
  destruct (Nat.eqb_spec (length points) 0) as [| Hn]; [left; by eexists |].
  destruct (rd_in_range points (EdgeMap.toInt32 (rnd 0%nat * inject_Z (Z.of_nat (length points)))))
    as [p0 ->]; [apply first_draw_index; [done | lia | done] |].
  pose proof (seed_no_fault fuel rnd points k 1 [mkCenter p0 1]) as Hs.
  destruct (seed fuel rnd 1 points k [mkCenter p0 1]) as [c | |]; [| by right | done].
  left. change (exists r, lloyd 8 points c = Done r). apply lloyd_done.
Qed.

(** C1 (what the code does instead).  On an opaque image of one colour that
    passes the noise filter, [#336699] for one, no hex is ever returned:
    with draws in [0, 1) a run either returns the empty list or is still in
    the seeding loop; for [k <= 1] it returns the empty list, and for
    [k >= 2] with no draw equal to 0 it never leaves the loop. *)
Theorem solid_color_yields_no_hex fuel (rnd : draws) cr cg cb w h k :
  0 < w -> 0 < h -> w * h <= 2 ^ 31 -> keepColor cr cg cb = true -> unit_draws rnd ->
  let run := getDominantHexes fuel rnd (solid cr cg cb (Z.to_nat (w * h))) w h k in
  (run = Done [] \/ run = Spin) /\
  (k <= 1 -> run = Done []) /\
  (2 <= k -> (forall n, 0 < rnd n)%Q -> run = Spin).
Proof.
  intros Hw Hh Hbig Hkeep Hu run. subst run. unfold getDominantHexes.
  rewrite filtered_solid, Hkeep by lia.
  set (p := mkRGB (inject_Z cr) (inject_Z cg) (inject_Z cb)).
  set (m := Z.to_nat (w * h)).
  assert (0 < m)%nat as Hm by (unfold m; nia).
  assert (Z.of_nat m <= 2 ^ 31) as Hm' by (unfold m; lia).
  rewrite length_replicate.
  set (k' := Z.min k (Z.max 3 (Z.of_nat m / 200))).
  pose proof (Z.div_pos (Z.of_nat m) 200 ltac:(lia) ltac:(lia)) as Hdiv.
  split; [| split].
  - destruct (kmeansPP_done_or_spin fuel rnd (replicate m p) k' Hu) as [[c ->] | ->];
      [by rewrite length_replicate | | by right].
    left. simpl. by rewrite dedupe_nil, slice0_nil.
  - intros Hk.
    destruct (kmeansPP_one_returns fuel rnd (replicate m p) k' Hu) as [c ->];
      [by rewrite length_replicate | unfold k'; lia |].
    simpl. by rewrite dedupe_nil, slice0_nil.
  - intros Hk Hpos. rewrite kmeansPP_solid_spins; [done | done | done | unfold k'; lia |].
    intros n. destruct (Hu n). split; [apply Hpos | done].
Qed.

Lemma solid_color_yields_no_hex_witness :
  getDominantHexes 1000 (fun _ => 1 # 2)%Q (solid 51 102 153 (Z.to_nat (2 * 2))) 2 2 10 = Spin /\
  getDominantHexes 1000 (fun _ => 1 # 2)%Q (solid 51 102 153 (Z.to_nat (2 * 2))) 2 2 1 = Done [].
Proof.
  assert (unit_draws (fun _ => 1 # 2)%Q) as Hu by (intros n; split; [discriminate | reflexivity]).
  split.
  - apply (solid_color_yields_no_hex 1000 (fun _ => 1 # 2)%Q 51 102 153 2 2 10);
      [lia | lia | lia | reflexivity | exact Hu | lia | intros n; reflexivity].
  - apply (solid_color_yields_no_hex 1000 (fun _ => 1 # 2)%Q 51 102 153 2 2 1);
      [lia | lia | lia | reflexivity | exact Hu | lia].
Defined.

End PaletteFacts.

(** ** Colour distances *)
Section Distances.
Import JsMath.
Local Open Scope R_scope.

Lemma deltaE76_self x : Color.deltaE76 x x = 0.
Proof.
  unfold Color.deltaE76. cbv zeta. rewrite !Rminus_diag.
  replace (0 * 0 + 0 * 0 + 0 * 0) with 0 by ring. apply sqrt_0.
Qed.

(** The sum under the root of [deltaE76] is never negative. *)
Lemma deltaE76_radicand_nonneg (dL da db : R) : 0 <= dL * dL + da * da + db * db.
Proof. nra. Qed.

Lemma ratio7_bounds c : 0 <= c -> 0 <= ColorMatch.ratio7 c < 1.
Proof.
  intros Hc. unfold ColorMatch.ratio7.
  assert (0 <= c ^ 7) as H7 by (apply pow_le; exact Hc).
  assert (0 < 25 ^ 7) as H25 by (apply pow_lt; lra).
  split.
  - apply Rmult_le_pos; [exact H7 |]. left. apply Rinv_0_lt_compat. lra.
  - apply Rmult_lt_reg_r with (c ^ 7 + 25 ^ 7); [lra |].
    unfold Rdiv. rewrite Rmult_assoc, Rinv_l by lra. lra.
Qed.

Lemma hypot_nonneg x y : 0 <= hypot x y.
Proof. apply sqrt_pos. Qed.

Lemma sqrt_ratio7_le_1 c : 0 <= c -> 0 <= sqrt (ColorMatch.ratio7 c) <= 1.
Proof.
  intros Hc. destruct (ratio7_bounds c Hc) as [H0 H1]. split; [apply sqrt_pos |].
  rewrite <- sqrt_1. apply sqrt_le_1_alt. lra.
Qed.

(** The hue weight [T] of [deltaE] is at least 0.07. *)
Lemma hue_weight_pos (h : R) :
  0.07 <= 1 - 0.17 * cos (h - PI / 6) + 0.24 * cos (2 * h)
          + 0.32 * cos (3 * h + PI / 30) - 0.20 * cos (4 * h - (63 * PI) / 180).
Proof.
  pose proof (COS_bound (h - PI / 6)). pose proof (COS_bound (2 * h)).
  pose proof (COS_bound (3 * h + PI / 30)).
  pose proof (COS_bound (4 * h - (63 * PI) / 180)). lra.
Qed.

(** When [deltaE] reaches its [return], the three divisors are at least 1 and
    the rotation factor lies in [[-2, 2]]. *)
Lemma terms_bounds l1 l2 :
  let t := ColorMatch.terms l1 l2 in
  1 <= ColorMatch.Sl t /\ 1 <= ColorMatch.Sc t /\ 1 <= ColorMatch.Sh t /\
  -2 <= ColorMatch.Rt t <= 2.
Proof.
  unfold ColorMatch.terms. cbv zeta. cbn [ColorMatch.Sl ColorMatch.Sc ColorMatch.Sh ColorMatch.Rt].
  set (a1p := (1 + _) * ColorMatch.a l1). set (a2p := (1 + _) * ColorMatch.a l2).
  set (avgCp := (hypot a1p (ColorMatch.b l1) + hypot a2p (ColorMatch.b l2)) / 2).
  assert (0 <= avgCp) as HC.
  { unfold avgCp. pose proof (hypot_nonneg a1p (ColorMatch.b l1)).
    pose proof (hypot_nonneg a2p (ColorMatch.b l2)). lra. }
  match goal with |- context [0.015 * avgCp * ?u] => set (hw := u) end.
  assert (0.07 <= hw) as HT by apply hue_weight_pos.
  split; [| split; [| split]].
  - match goal with |- 1 <= 1 + ?n / sqrt ?d =>
      assert (0 <= n / sqrt d); [| lra] end.
    match goal with |- context [(?u - 50) ^ 2] => pose proof (pow2_ge_0 (u - 50)) as Hsq end.
    apply Rmult_le_pos; [lra |]. left. apply Rinv_0_lt_compat, sqrt_lt_R0. lra.
  - nra.
  - nra.
  - match goal with |- context [sin ?u] => pose proof (SIN_bound u) end.
    pose proof (sqrt_ratio7_le_1 avgCp HC). nra.
Qed.

Lemma rotated_form_nonneg (x y z rt : R) :
  -2 <= rt <= 2 -> 0 <= x ^ 2 + y ^ 2 + z ^ 2 + rt * y * z.
Proof.
  intros Hrt. pose proof (Rle_0_sqr x) as Hx. unfold Rsqr in Hx.
  destruct (Rle_dec 0 (y * z)) as [Hs | Hs].
  - assert (0 <= (rt + 2) * (y * z)) as H1 by (apply Rmult_le_pos; lra).
    pose proof (Rle_0_sqr (y - z)) as H2. unfold Rsqr in H2. simpl. lra.
  - assert (0 <= (2 - rt) * (- (y * z))) as H1 by (apply Rmult_le_pos; lra).
    pose proof (Rle_0_sqr (y + z)) as H2. unfold Rsqr in H2. simpl. lra.
Qed.

(** The argument of the final root of [deltaE] is never negative: the root
    is a real number. *)
Lemma radicand_nonneg l1 l2 : 0 <= ColorMatch.radicand l1 l2.
Proof.
  unfold ColorMatch.radicand. cbv zeta.
  apply rotated_form_nonneg. apply (terms_bounds l1 l2).
Qed.

Lemma terms_self l :
  let t := ColorMatch.terms l l in
  ColorMatch.dLp t = 0 /\ ColorMatch.dCp t = 0 /\ ColorMatch.dHp t = 0.
Proof.
  unfold ColorMatch.terms. cbv zeta.
  cbn [ColorMatch.dLp ColorMatch.dCp ColorMatch.dHp].
  rewrite !Rminus_diag.
  pose proof PI_RGT_0 as Hpi.
  destruct (Rlt_dec PI 0) as [? | _]; [lra |].
  destruct (Rlt_dec 0 (- PI)) as [? | _]; [lra |].
  replace (0 / 2) with 0 by lra. rewrite sin_0.
  repeat split; ring.
Qed.

Lemma deltaE_self l : ColorMatch.deltaE l l = 0.
Proof.
  unfold ColorMatch.deltaE, ColorMatch.radicand. cbv zeta.
  destruct (terms_self l) as (-> & -> & ->).
  replace (_ + _ + _ + _) with 0; [apply sqrt_0 |].
  unfold Rdiv. ring.
Qed.

(** *** Delta-E 76 as a distance, and the symmetry of Delta-E 2000 *)

Lemma cauchy_schwarz3 (u1 u2 u3 v1 v2 v3 : R) :
  (u1 * v1 + u2 * v2 + u3 * v3) * (u1 * v1 + u2 * v2 + u3 * v3)
  <= (u1 * u1 + u2 * u2 + u3 * u3) * (v1 * v1 + v2 * v2 + v3 * v3).
Proof.
  pose proof (Rle_0_sqr (u1 * v2 - u2 * v1)) as H1.
  pose proof (Rle_0_sqr (u1 * v3 - u3 * v1)) as H2.
  pose proof (Rle_0_sqr (u2 * v3 - u3 * v2)) as H3.
  unfold Rsqr in *. lra.
Qed.

Lemma minkowski3 (u1 u2 u3 v1 v2 v3 : R) :
  sqrt ((u1 + v1) * (u1 + v1) + (u2 + v2) * (u2 + v2) + (u3 + v3) * (u3 + v3))
  <= sqrt (u1 * u1 + u2 * u2 + u3 * u3) + sqrt (v1 * v1 + v2 * v2 + v3 * v3).
Proof.
  set (Su := u1 * u1 + u2 * u2 + u3 * u3). set (Sv := v1 * v1 + v2 * v2 + v3 * v3).
  set (P := u1 * v1 + u2 * v2 + u3 * v3).
  pose proof (deltaE76_radicand_nonneg u1 u2 u3) as HSu. fold Su in HSu.
  pose proof (deltaE76_radicand_nonneg v1 v2 v3) as HSv. fold Sv in HSv.
  pose proof (sqrt_pos Su) as HU. pose proof (sqrt_pos Sv) as HV.
  pose proof (sqrt_sqrt Su HSu) as EU. pose proof (sqrt_sqrt Sv HSv) as EV.
  assert (P <= sqrt Su * sqrt Sv) as HP.
  { destruct (Rle_dec P 0) as [Hn | Hp].
    - pose proof (Rmult_le_pos _ _ HU HV). lra.
    - rewrite <- sqrt_mult by done. rewrite <- (sqrt_square P) by lra.
      apply sqrt_le_1_alt. apply cauchy_schwarz3. }
  rewrite <- (sqrt_square (sqrt Su + sqrt Sv)) by lra.
  apply sqrt_le_1_alt.
  replace ((sqrt Su + sqrt Sv) * (sqrt Su + sqrt Sv))
    with (sqrt Su * sqrt Su + sqrt Sv * sqrt Sv + 2 * (sqrt Su * sqrt Sv)) by ring.
  rewrite EU, EV. unfold Su, Sv, P in *. lra.
Qed.

(** X16.  [deltaE76] is a distance on Lab triples: it is symmetric, it is 0
    only between equal triples, and it obeys the triangle inequality. *)
Theorem deltaE76_is_a_metric (x y z : R * R * R) :
  Color.deltaE76 x y = Color.deltaE76 y x /\
  (Color.deltaE76 x y = 0 <-> x = y) /\
  Color.deltaE76 x z <= Color.deltaE76 x y + Color.deltaE76 y z.
Proof.
  split; [| split; [split |]].
  - destruct x as [[x1 x2] x3], y as [[y1 y2] y3]. unfold Color.deltaE76. simpl.
    f_equal. ring.
  - destruct x as [[x1 x2] x3], y as [[y1 y2] y3]. unfold Color.deltaE76. simpl.
    intros H. apply sqrt_eq_0 in H; [| apply deltaE76_radicand_nonneg].
    pose proof (Rle_0_sqr (x1 - y1)) as H1. pose proof (Rle_0_sqr (x2 - y2)) as H2.
    pose proof (Rle_0_sqr (x3 - y3)) as H3. unfold Rsqr in *.
    assert ((x1 - y1) * (x1 - y1) = 0) as E1 by lra.
    assert ((x2 - y2) * (x2 - y2) = 0) as E2 by lra.
    assert ((x3 - y3) * (x3 - y3) = 0) as E3 by lra.
    apply Rsqr_0_uniq in E1, E2, E3.
    replace x1 with y1 by lra. replace x2 with y2 by lra. replace x3 with y3 by lra. done.
  - intros ->. apply deltaE76_self.
  - destruct x as [[x1 x2] x3], y as [[y1 y2] y3], z as [[z1 z2] z3].
    unfold Color.deltaE76. simpl.
    replace (x1 - z1) with ((x1 - y1) + (y1 - z1)) by ring.
    replace (x2 - z2) with ((x2 - y2) + (y2 - z2)) by ring.
    replace (x3 - z3) with ((x3 - y3) + (y3 - z3)) by ring.
    apply minkowski3.
Qed.

(** Swapping the two colours negates the three differences of [deltaE] and
    leaves its weights and its rotation term as they were. *)
Lemma terms_swap l1 l2 :
  let t := ColorMatch.terms l1 l2 in
  ColorMatch.terms l2 l1 =
  ColorMatch.mkTerms (- ColorMatch.dLp t) (- ColorMatch.dCp t) (- ColorMatch.dHp t)
    (ColorMatch.Sl t) (ColorMatch.Sc t) (ColorMatch.Sh t) (ColorMatch.Rt t).
Proof.
  destruct l1 as [L1 a1 b1], l2 as [L2 a2 b2].
  unfold ColorMatch.terms. cbv zeta.
  cbn [ColorMatch.L ColorMatch.a ColorMatch.b
       ColorMatch.dLp ColorMatch.dCp ColorMatch.dHp ColorMatch.Sl ColorMatch.Sc
       ColorMatch.Sh ColorMatch.Rt].
  rewrite (Rplus_comm L2 L1).
  rewrite (Rplus_comm (hypot a2 b2) (hypot a1 b1)).
  set (G := 0.5 * (1 - sqrt (ColorMatch.ratio7 ((hypot a1 b1 + hypot a2 b2) / 2)))).
  set (C1p := hypot ((1 + G) * a1) b1). set (C2p := hypot ((1 + G) * a2) b2).
  rewrite (Rplus_comm C2p C1p).
  set (h1 := atan2 b1 ((1 + G) * a1)). set (h2 := atan2 b2 ((1 + G) * a2)).
  set (H1p := if Rle_dec 0 h1 then h1 else h1 + 2 * PI).
  set (H2p := if Rle_dec 0 h2 then h2 else h2 + 2 * PI).
  rewrite (Rplus_comm H2p H1p). rewrite (Rabs_minus_sym H2p H1p).
  rewrite (Rmult_comm C2p C1p).
  set (d := H2p - H1p).
  replace (H1p - H2p) with (- d) by (unfold d; ring).
  assert ((if Rlt_dec (if Rlt_dec PI (- d) then - d - 2 * PI else - d) (- PI)
           then (if Rlt_dec PI (- d) then - d - 2 * PI else - d) + 2 * PI
           else (if Rlt_dec PI (- d) then - d - 2 * PI else - d))
          = - (if Rlt_dec (if Rlt_dec PI d then d - 2 * PI else d) (- PI)
               then (if Rlt_dec PI d then d - 2 * PI else d) + 2 * PI
               else (if Rlt_dec PI d then d - 2 * PI else d))) as ->.
  { pose proof PI_RGT_0.
    destruct (Rlt_dec PI (- d)), (Rlt_dec PI d);
      repeat (match goal with |- context [Rlt_dec ?u ?v] => destruct (Rlt_dec u v) end);
      lra. }
  rewrite Rabs_Ropp.
  f_equal; try ring.
  match goal with |- context [sin (- ?u / 2)] =>
    replace (- u / 2) with (- (u / 2)) by lra; rewrite sin_neg end.
  ring.
Qed.

(** X17.  [deltaE], the Delta-E 2000 of [colorMatch.ts], is symmetric: the
    distance from one colour to another is the distance back. *)
Theorem deltaE_symmetric (l1 l2 : ColorMatch.Lab) :
  ColorMatch.deltaE l1 l2 = ColorMatch.deltaE l2 l1.
Proof.
  unfold ColorMatch.deltaE, ColorMatch.radicand. cbv zeta.
  rewrite (terms_swap l1 l2). cbv zeta.
  cbn [ColorMatch.dLp ColorMatch.dCp ColorMatch.dHp ColorMatch.Sl ColorMatch.Sc
       ColorMatch.Sh ColorMatch.Rt].
  f_equal. unfold Rdiv. ring.
Qed.

End Distances.

(** C8.  Both colour distances vanish on equal colours and are never negative;
    the sums under their roots are never negative either, so neither root is
    taken of a negative number. *)
Theorem distances_zero_and_nonneg (x y : R * R * R) (l1 l2 : ColorMatch.Lab) :
  (Color.deltaE76 x x = 0 /\ 0 <= Color.deltaE76 x y)%R /\
  (ColorMatch.deltaE l1 l1 = 0 /\ 0 <= ColorMatch.deltaE l1 l2
   /\ 0 <= ColorMatch.radicand l1 l2)%R.
Proof.
  split; [split; [apply deltaE76_self | apply sqrt_pos] |].
  split; [apply deltaE_self |]. split; [apply sqrt_pos | apply radicand_nonneg].
Qed.

(** ** Ranking: the stable sort by a real-valued key *)

Section Ranking.
Context {A : Type} (key : A -> R).
Import JsMath.

Local Abbreviation later := (fun x y : A => gt0 (key x - key y)).

Lemma later_true x y : gt0 (key x - key y) = true -> (key y < key x)%R.
Proof. unfold gt0. destruct (Rlt_dec 0 (key x - key y)); [lra | discriminate]. Qed.

Lemma later_false x y : gt0 (key x - key y) = false -> (key x <= key y)%R.
Proof. unfold gt0. destruct (Rlt_dec 0 (key x - key y)); [discriminate | lra]. Qed.

Lemma sort_insert_ascending x l :
  ascending key l -> ascending key (sort_insert later x l).
Proof.
  induction 1 as [| y l Hl IH Hy]; simpl; [repeat constructor |].
  destruct (gt0 (key x - key y)) eqn:E.
  - constructor; [exact IH |].
    apply list.Forall_forall. intros z Hz.
    rewrite sort_insert_perm in Hz. apply elem_of_cons in Hz as [-> | Hz].
    + apply later_true in E. lra.
    + rewrite list.Forall_forall in Hy. by apply Hy.
  - apply later_false in E. constructor; [by constructor |].
    constructor; [exact E |].
    rewrite list.Forall_forall in Hy. apply list.Forall_forall. intros z Hz.
    specialize (Hy z Hz). simpl in Hy. lra.
Qed.

Lemma js_sort_ascending l : ascending key (js_sort later l).
Proof.
  induction l as [| x l IH]; simpl; [constructor | by apply sort_insert_ascending].
Qed.

(** Entries at one distance keep the order they had before the sort. *)
Lemma sort_insert_ties d x l :
  filter (fun e => key e = d) (sort_insert later x l)
  = filter (fun e => key e = d) (x :: l).
Proof.
  induction l as [| y l IH]; simpl; [done |].
  destruct (gt0 (key x - key y)) eqn:E; [| done].
  apply later_true in E.
  destruct (decide (key x = d)) as [Hx | Hx].
  - rewrite (filter_cons_False _ y) by lra.
    rewrite IH. rewrite !(filter_cons_True _ x) by done.
    by rewrite (filter_cons_False _ y) by lra.
  - rewrite (filter_cons_False _ x) by done.
    rewrite !(filter_cons _ y). rewrite IH.
    by rewrite (filter_cons_False _ x) by done.
Qed.

Lemma js_sort_ties d l :
  filter (fun e => key e = d) (js_sort later l) = filter (fun e => key e = d) l.
Proof.
  induction l as [| x l IH]; simpl; [done |].
  rewrite sort_insert_ties. rewrite !(filter_cons _ x). by rewrite IH.
Qed.


Lemma js_sort_ranks l : ranks key l (js_sort later l).
Proof.
  split; [apply js_sort_perm |]. split; [apply js_sort_ascending | intros; apply js_sort_ties].
Qed.


End Ranking.



Lemma clampTopK_range topK : 1 <= Color.clampTopK topK <= 5.
Proof. unfold Color.clampTopK. lia. Qed.

(** ** The two matchers *)
Section MatcherFacts.
Import JsMath.




Lemma hexToLab_parses (hx : string) c :
  ColorMatch.hexToRgb01 hx = Some c -> is_Some (ColorMatch.hexToLab hx).
Proof. intros E. unfold ColorMatch.hexToLab. rewrite E. by eexists. Qed.

Lemma seven_pencils_parse :
  Forall (fun p => is_Some (ColorMatch.hexToLab (ColorMatch.hex p))) seven_pencils.
Proof.
  repeat constructor; simpl; eapply hexToLab_parses; reflexivity.
Qed.

(** Both matchers return whenever every hex they are given parses. *)
Lemma nearestFC_returns hexes lib k :
  Forall (fun p => is_Some (ColorMatch.hexToLab (ColorMatch.hex p))) lib ->
  Forall (fun hx => is_Some (ColorMatch.hexToLab hx)) hexes ->
  is_Some (ColorMatch.nearestFC hexes lib k).
Proof.
  intros Hlib Hhex. unfold ColorMatch.nearestFC.
  destruct (mapM_is_Some_2 (fun p => lab ← ColorMatch.hexToLab (ColorMatch.hex p); Some (p, lab)) lib)
    as [libLab ->].
  { eapply list.Forall_impl; [exact Hlib |]. intros p [lab E]. simpl. rewrite E. by eexists. }
  simpl. apply mapM_is_Some_2.
  eapply list.Forall_impl; [exact Hhex |]. intros hx [lab E]. simpl. rewrite E. by eexists.
Qed.

Lemma matchToFaberCastell_returns FC_ALL hexes setSize topK :
  Forall (fun p => is_Some (pencilLab p)) (Color.getFCPalette FC_ALL setSize) ->
  Forall (fun hx => is_Some (Color.hexToLab hx)) hexes ->
  is_Some (Color.matchToFaberCastell FC_ALL hexes setSize topK).
Proof.
  intros Hpal Hhex. unfold Color.matchToFaberCastell.
  destruct (mapM_is_Some_2 (fun p => lab ← pencilLab p; Some (p, lab))
              (Color.getFCPalette FC_ALL setSize)) as [palLab E].
  { eapply list.Forall_impl; [exact Hpal |]. intros p [lab E]. simpl. rewrite E. by eexists. }
  unfold pencilLab in E. rewrite E.
  simpl. apply mapM_is_Some_2.
  eapply list.Forall_impl; [exact Hhex |]. intros hx [lab E']. simpl. rewrite E'. by eexists.
Qed.

Lemma black_parses :
  is_Some (ColorMatch.hexToLab "#000000") /\ is_Some (Color.hexToLab "#000000").
Proof.
  split; [eapply hexToLab_parses; reflexivity |].
  unfold Color.hexToLab.
  assert (Color.hexToRgb "#000000" = Some (IZR 0, IZR 0, IZR 0)) as -> by reflexivity.
  by eexists.
Qed.

Lemma two_pencils_parse : Forall (fun p => is_Some (pencilLab p)) two_pencils.
Proof.
  repeat constructor.
  - unfold pencilLab, Color.hexToLab. simpl Color.rgb. simpl Color.hex.
    assert (Color.hexToRgb "#FFFFFF" = Some (IZR 255, IZR 255, IZR 255)) as -> by reflexivity.
    by eexists.
  - by eexists.
Qed.







(** *** The first match is a nearest pencil *)

Lemma ascending_head_min {A} (key : A -> R) x l y :
  ascending key (x :: l) -> y ∈ x :: l -> (key x <= key y)%R.
Proof.
  intros Hs Hy. inversion Hs as [| ? ? _ Hx]; subst.
  apply elem_of_cons in Hy as [-> | Hy]; [lra |].
  rewrite list.Forall_forall in Hx. by apply Hx.
Qed.

(** The head of a ranking is a nearest entry. *)
Lemma ranks_head_min {A} (key : A -> R) scored full n :
  ranks key scored full -> (0 < n)%nat -> scored <> [] ->
  exists m ms, take n full = m :: ms /\ m ∈ scored /\
    forall s, s ∈ scored -> (key m <= key s)%R.
Proof.
  intros (Hp & Hs & _) Hn Hne.
  destruct full as [| m full'].
  { apply Permutation_nil_l in Hp. by subst. }
  destruct n as [| n]; [lia |]. simpl. exists m, (take n full').
  split; [done |]. split; [rewrite <- Hp; by left |].
  intros s Hin. rewrite <- Hp in Hin. by eapply ascending_head_min.
Qed.

Lemma pairs_labs {A B} (f : A -> option B) (l : list A) (k : list (A * B)) :
  Forall2 (fun p pl => (lab ← f p; Some (p, lab)) = Some pl) l k ->
  forall p lab, p ∈ l -> f p = Some lab -> (p, lab) ∈ k.
Proof.
  induction 1 as [| p pl l k H _ IH]; intros q lab Hq Hf; [by apply not_elem_of_nil in Hq |].
  apply elem_of_cons in Hq as [-> | Hq]; [| right; by eapply IH].
  rewrite Hf in H. simpl in H. injection H as <-. by left.
Qed.

Lemma pairs_sound {A B} (f : A -> option B) (l : list A) (k : list (A * B)) :
  Forall2 (fun p pl => (lab ← f p; Some (p, lab)) = Some pl) l k ->
  forall pl, pl ∈ k -> pl.1 ∈ l /\ f pl.1 = Some pl.2.
Proof.
  induction 1 as [| p pl l k H _ IH]; intros q Hq; [by apply not_elem_of_nil in Hq |].
  apply elem_of_cons in Hq as [-> | Hq].
  - destruct (f p) as [lab |] eqn:E; [| done]. simpl in H. injection H as <-. simpl.
    split; [by left | done].
  - destruct (IH q Hq). split; [by right | done].
Qed.

(** X18.  When [matchToFaberCastell] returns and the palette of the chosen
    set is not empty, every source hex gets at least one match, and the first
    is a pencil of the palette at the least Delta-E 76 from the source: no
    pencil of the palette is nearer. *)
Theorem best_pencil_is_nearest FC_ALL hexes setSize topK res :
  Color.matchToFaberCastell FC_ALL hexes setSize topK = Some res ->
  Color.getFCPalette FC_ALL setSize <> [] ->
  Forall2 (fun hx r =>
    exists srcLab m ms lab,
      Color.hexToLab hx = Some srcLab /\ r.2 = m :: ms /\
      Color.pencil m ∈ Color.getFCPalette FC_ALL setSize /\
      pencilLab (Color.pencil m) = Some lab /\
      Color.dE m = Color.deltaE76 srcLab lab /\
      forall p lab', p ∈ Color.getFCPalette FC_ALL setSize -> pencilLab p = Some lab' ->
        (Color.dE m <= Color.deltaE76 srcLab lab')%R) hexes res.
Proof.
  unfold Color.matchToFaberCastell. intros Hres Hne.
  destruct (mapM _ (Color.getFCPalette FC_ALL setSize)) as [palLab |] eqn:Epal; [| done].
  simpl in Hres. apply mapM_Some in Hres. apply mapM_Some in Epal.
  change (Forall2 (fun p pl => (lab ← pencilLab p; Some (p, lab)) = Some pl)
            (Color.getFCPalette FC_ALL setSize) palLab) in Epal.
  eapply list.Forall2_impl; [exact Hres |]. intros hx r Hr. simpl in Hr.
  destruct (Color.hexToLab hx) as [srcLab |]; [| done]. injection Hr as <-. simpl.
  set (scored := map (fun pl => Color.mkScored pl.1 (Color.deltaE76 srcLab pl.2)) palLab).
  assert (scored <> []) as Hsc.
  { unfold scored. intros E. apply map_eq_nil in E. subst palLab.
    apply list.Forall2_nil_inv_r in Epal. done. }
  pose proof (clampTopK_range topK) as Hk.
  destruct (ranks_head_min Color.dE scored (Color.ranked srcLab palLab)
              (Z.to_nat (Color.clampTopK topK))) as (m & ms & Et & Hm & Hmin);
    [apply js_sort_ranks | lia | done |].
  apply list_elem_of_fmap in Hm as ([p lab] & -> & Hpl).
  destruct (pairs_sound _ _ _ Epal _ Hpl) as [Hp Hlab]. simpl in Hp, Hlab.
  exists srcLab, (Color.mkScored p (Color.deltaE76 srcLab lab)), ms, lab.
  split; [done |]. split.
  { unfold slice0. destruct (Z.ltb_spec (Color.clampTopK topK) 0); [lia | exact Et]. }
  do 3 (split; [done |]).
  intros q lab' Hq Hq'. simpl.
  apply (Hmin (Color.mkScored q (Color.deltaE76 srcLab lab'))).
  apply list_elem_of_fmap. exists (q, lab'). split; [done |].
  by eapply pairs_labs.
Qed.

(** X19.  When [nearestFC] returns for [k >= 1] and a library that is not
    empty, every input hex gets at least one match, and the first is a
    library entry at the least Delta-E 2000 from the input: no entry of the
    library is nearer. *)
Theorem nearest_pencil_comes_first hexes lib k res :
  ColorMatch.nearestFC hexes lib k = Some res -> 1 <= k -> lib <> [] ->
  Forall2 (fun hx r =>
    exists src m ms lab,
      r.1 = hx /\ ColorMatch.hexToLab hx = Some src /\ r.2 = m :: ms /\
      entryOf m ∈ lib /\ ColorMatch.hexToLab (ColorMatch.m_hex m) = Some lab /\
      ColorMatch.m_deltaE m = ColorMatch.deltaE src lab /\
      forall p lab', p ∈ lib -> ColorMatch.hexToLab (ColorMatch.hex p) = Some lab' ->
        (ColorMatch.m_deltaE m <= ColorMatch.deltaE src lab')%R) hexes res.
Proof.
  unfold ColorMatch.nearestFC. intros Hres Hk Hne.
  destruct (mapM _ lib) as [libLab |] eqn:Elib; [| done].
  simpl in Hres. apply mapM_Some in Hres. apply mapM_Some in Elib.
  change (Forall2 (fun p pl => (lab ← (fun p => ColorMatch.hexToLab (ColorMatch.hex p)) p;
                                Some (p, lab)) = Some pl) lib libLab) in Elib.
  eapply list.Forall2_impl; [exact Hres |]. intros hx r Hr. simpl in Hr.
  destruct (ColorMatch.hexToLab hx) as [src |]; [| done]. injection Hr as <-. simpl.
  set (scored := map (fun pl => ColorMatch.mkMatch (ColorMatch.id pl.1) (ColorMatch.name pl.1)
                                  (ColorMatch.hex pl.1) (ColorMatch.deltaE src pl.2)) libLab).
  assert (scored <> []) as Hsc.
  { unfold scored. intros E. apply map_eq_nil in E. subst libLab.
    apply list.Forall2_nil_inv_r in Elib. done. }
  destruct (ranks_head_min ColorMatch.m_deltaE scored (ColorMatch.ranked src libLab)
              (Z.to_nat k)) as (m & ms & Et & Hm & Hmin);
    [apply js_sort_ranks | lia | done |].
  apply list_elem_of_fmap in Hm as ([p lab] & -> & Hpl).
  destruct (pairs_sound _ _ _ Elib _ Hpl) as [Hp Hlab]. simpl in Hp, Hlab.
  exists src, (ColorMatch.mkMatch (ColorMatch.id p) (ColorMatch.name p) (ColorMatch.hex p)
                 (ColorMatch.deltaE src lab)), ms, lab.
  do 2 (split; [done |]). split.
  { unfold slice0. destruct (Z.ltb_spec k 0); [lia | exact Et]. }
  split; [by destruct p |]. do 2 (split; [done |]).
  intros q lab' Hq Hq'. simpl.
  apply (Hmin (ColorMatch.mkMatch (ColorMatch.id q) (ColorMatch.name q) (ColorMatch.hex q)
                 (ColorMatch.deltaE src lab'))).
  apply list_elem_of_fmap. exists (q, lab'). split; [done |].
  by eapply (pairs_labs (fun p => ColorMatch.hexToLab (ColorMatch.hex p))).
Qed.

Lemma best_pencil_is_nearest_witness :
  exists res, Color.matchToFaberCastell two_pencils ["#000000"%string] None (Some 7) = Some res /\
    Forall2 (fun hx r => exists m ms, r.2 = m :: ms /\ Color.pencil m ∈ two_pencils)
      ["#000000"%string] res.
Proof.
  destruct (matchToFaberCastell_returns two_pencils ["#000000"%string] None (Some 7))
    as [res Hres]; [apply two_pencils_parse | repeat constructor; apply black_parses |].
  exists res. split; [exact Hres |].
  assert (Color.getFCPalette two_pencils None <> []) as Hne by discriminate.
  eapply list.Forall2_impl; [exact (best_pencil_is_nearest _ _ _ _ _ Hres Hne) |].
  intros hx r (_ & m & ms & _ & _ & Hr & Hin & _). by exists m, ms.
Defined.

Lemma nearest_pencil_comes_first_witness :
  exists res, ColorMatch.nearestFC ["#000000"%string] seven_pencils 3 = Some res /\
    Forall2 (fun hx r => exists m ms, r.2 = m :: ms /\ entryOf m ∈ seven_pencils)
      ["#000000"%string] res.
Proof.
  destruct (nearestFC_returns ["#000000"%string] seven_pencils 3)
    as [res Hres]; [apply seven_pencils_parse | repeat constructor; apply black_parses |].
  exists res. split; [exact Hres |].
  assert (1 <= 3) as Hk by lia.
  assert (seven_pencils <> []) as Hne by discriminate.
  eapply list.Forall2_impl; [exact (nearest_pencil_comes_first _ _ _ _ Hres Hk Hne) |].
  intros hx r (_ & m & ms & _ & _ & _ & Hr & Hin & _). by exists m, ms.
Defined.

End MatcherFacts.

(** ** Hex strings in the two matchers *)
Section HexFacts.
Import JsMath.

Lemma hexVal_upper c : hexVal (upperChar c) = hexVal c.
Proof. destruct c as [[] [] [] [] [] [] [] []]; reflexivity. Qed.

Lemma isSpace_upper c : isSpace (upperChar c) = isSpace c.
Proof. destruct c as [[] [] [] [] [] [] [] []]; reflexivity. Qed.

Lemma upper_upper c : upperChar (upperChar c) = upperChar c.
Proof. destruct c as [[] [] [] [] [] [] [] []]; reflexivity. Qed.

Lemma hexPrefix_upper s : forall acc, hexPrefix (toUpperCase s) acc = hexPrefix s acc.
Proof.
  induction s as [| c s IH]; intros acc; simpl; [done |].
  rewrite hexVal_upper. destruct (hexVal c); [apply IH | done].
Qed.

Lemma trimStart_upper s : trimStart (toUpperCase s) = toUpperCase (trimStart s).
Proof.
  induction s as [| c s IH]; simpl; [done |].
  rewrite isSpace_upper. by destruct (isSpace c).
Qed.

Lemma parseInt16_eq s :
  parseInt16 s
  = Z.mul (signOf (trimStart s)).1 <$> hexPrefix (skip0x (signOf (trimStart s)).2) None.
Proof.
  unfold parseInt16, signOf, skip0x.
  destruct (trimStart s) as [| c r]; [done |].
  destruct c as [[] [] [] [] [] [] [] []]; reflexivity.
Qed.

Lemma signOf_upper s :
  signOf (toUpperCase s) = ((signOf s).1, toUpperCase (signOf s).2).
Proof.
  destruct s as [| c r]; [done |].
  destruct c as [[] [] [] [] [] [] [] []]; reflexivity.
Qed.

Lemma skip0x_upper s acc :
  hexPrefix (skip0x (toUpperCase s)) acc = hexPrefix (skip0x s) acc.
Proof.
  destruct s as [| c [| c' r]]; [done | |].
  - destruct c as [[] [] [] [] [] [] [] []]; reflexivity.
  - assert (forall t, hexPrefix (toUpperCase t) acc = hexPrefix t acc) as H
      by (intros; apply hexPrefix_upper).
    pose proof (H (String c (String c' r))) as H2. pose proof (H r) as Hr.
    destruct c as [[] [] [] [] [] [] [] []];
      try exact H2;
      destruct c' as [[] [] [] [] [] [] [] []]; try exact H2; exact Hr.
Qed.

(** [parseInt(s, 16)] does not see the case of letters. *)
Lemma parseInt16_upper s : parseInt16 (toUpperCase s) = parseInt16 s.
Proof.
  rewrite !parseInt16_eq, trimStart_upper, signOf_upper. simpl.
  by rewrite skip0x_upper.
Qed.

Lemma substring_upper s : forall a n,
  substring a n (toUpperCase s) = toUpperCase (substring a n s).
Proof.
  induction s as [| c s IH]; intros [| a] [| n]; simpl; try done; by rewrite IH.
Qed.

Lemma length_upper s : String.length (toUpperCase s) = String.length s.
Proof. induction s as [| c s IH]; simpl; [done | by rewrite IH]. Qed.

Lemma upper_idem s : toUpperCase (toUpperCase s) = toUpperCase s.
Proof. induction s as [| c s IH]; simpl; [done | by rewrite upper_upper, IH]. Qed.

Lemma slice_parse_upper a b s :
  parseInt16 (sliceStr a b (toUpperCase s)) = parseInt16 (sliceStr a b s).
Proof. unfold sliceStr. by rewrite substring_upper, parseInt16_upper. Qed.

(** A second normalisation only upper-cases the first. *)
Lemma normalizeHex_twice h :
  Color.normalizeHex (Color.normalizeHex h) = toUpperCase (Color.normalizeHex h).
Proof.
  unfold Color.normalizeHex at 2 3.
  set (t := if Color.startsWithHash h then h else String "#"%char h).
  assert (Color.startsWithHash t = true) as Ht.
  { unfold t. destruct (Color.startsWithHash h) eqn:E; [done | reflexivity]. }
  destruct t as [| c0 t']; [done |]. simpl in Ht. apply Ascii.eqb_eq in Ht. subst c0.
  destruct t' as [| c1 [| c2 [| c3 [| c4 t'']]]]; reflexivity.
Qed.

Lemma slice_tail_upper n :
  sliceStr 1 (String.length (toUpperCase n)) (toUpperCase n)
  = toUpperCase (sliceStr 1 (String.length n) n).
Proof. unfold sliceStr. by rewrite length_upper, substring_upper. Qed.

(** X20.  The hex [matchToFaberCastell] reports for a source, its normal
    form, reads as the same colour as the source itself; and although a
    three-digit hex is expanded without being upper-cased, normalising twice
    is as good as normalising any number of times. *)
Theorem normalized_hex_reads_the_same (h : string) :
  asciiOnly h = true ->
  Color.hexToRgb (Color.normalizeHex h) = Color.hexToRgb h /\
  Color.normalizeHex (Color.normalizeHex (Color.normalizeHex h))
  = Color.normalizeHex (Color.normalizeHex h).
Proof.
  intros _. split.
  - unfold Color.hexToRgb. rewrite normalizeHex_twice, slice_tail_upper.
    by rewrite !slice_parse_upper.
  - by rewrite !normalizeHex_twice, upper_idem.
Qed.

Lemma normalized_hex_reads_the_same_witness :
  Color.normalizeHex "3a9"%string = "#33aa99"%string /\
  Color.hexToRgb (Color.normalizeHex "3a9"%string) = Color.hexToRgb "3a9"%string /\
  Color.normalizeHex (Color.normalizeHex (Color.normalizeHex "3a9"%string))
  = Color.normalizeHex (Color.normalizeHex "3a9"%string).
Proof.
  split; [reflexivity |]. exact (normalized_hex_reads_the_same "3a9"%string eq_refl).
Defined.

Lemma dropHash_noHash s : noHash s = true -> dropHash s = s.
Proof.
  induction s as [| c s IH]; simpl; [done |].
  destruct (Ascii.eqb c "#"); [done |]. simpl. intros H. by rewrite IH.
Qed.

Lemma noHash_start s : noHash s = true -> Color.startsWithHash s = false.
Proof. destruct s as [| c s]; simpl; [done |]. by destruct (Ascii.eqb c "#"). Qed.

Lemma substring_all s : substring 0 (String.length s) s = s.
Proof. induction s as [| c s IH]; simpl; [done | by rewrite IH]. Qed.

Lemma slice_tail c s : sliceStr 1 (String.length (String c s)) (String c s) = s.
Proof.
  unfold sliceStr. cbn [String.length substring]. rewrite Nat.sub_succ, Nat.sub_0_r.
  apply substring_all.
Qed.

Lemma normalizeHex_hash rest :
  Color.normalizeHex (String "#"%char rest)
  = String "#"%char (if (String.length rest =? 3)%nat then doubleChars rest
                     else toUpperCase rest).
Proof. destruct rest as [| c1 [| c2 [| c3 [| c4 r]]]]; reflexivity. Qed.

(** The digits [services/color.ts] parses, for a hex with digits [rest]. *)
Lemma color_digits rest :
  sliceStr 1 (String.length (Color.normalizeHex (String "#"%char rest)))
    (Color.normalizeHex (String "#"%char rest))
  = if (String.length rest =? 3)%nat then doubleChars rest else toUpperCase rest.
Proof. rewrite normalizeHex_hash. apply slice_tail. Qed.

Lemma rgbToLab_agree (cr cg cb : R) :
  Color.rgbToLab (cr, cg, cb)
  = (let xyz := ColorMatch.rgbToXyz (cr / 255, cg / 255, cb / 255) in
     (116 * ColorMatch.labF (xyz.1.2 / 1) - 16,
      500 * (ColorMatch.labF (xyz.1.1 / 0.95047) - ColorMatch.labF (xyz.1.2 / 1)),
      200 * (ColorMatch.labF (xyz.1.2 / 1) - ColorMatch.labF (xyz.2 / 1.08883))))%R.
Proof.
  unfold Color.rgbToLab, Color.xyzToLab, Color.rgbToXyz, ColorMatch.rgbToXyz. cbv zeta.
  cbn [fst snd].
  change Color.f with ColorMatch.labF.
  change (Color.srgbToLinear cr) with (ColorMatch.srgbToLin (cr / 255)).
  change (Color.srgbToLinear cg) with (ColorMatch.srgbToLin (cg / 255)).
  change (Color.srgbToLinear cb) with (ColorMatch.srgbToLin (cb / 255)).
  replace 0.1191920%R with 0.119192%R by lra.
  replace 1.0%R with 1%R by lra. reflexivity.
Qed.

Lemma hexToLab_on_digits rest hx :
  Color.normalizeHex hx = Color.normalizeHex (String "#"%char rest) ->
  dropHash hx = rest ->
  Color.hexToLab hx = labTriple <$> ColorMatch.hexToLab hx.
Proof.
  intros Hn Hd. unfold Color.hexToLab, Color.hexToRgb, ColorMatch.hexToLab, ColorMatch.hexToRgb01.
  rewrite Hn, color_digits, Hd.
  destruct (String.length rest =? 3)%nat.
  - destruct (parseInt16 (sliceStr 0 2 _)) as [cr |]; [| done].
    destruct (parseInt16 (sliceStr 2 4 _)) as [cg |]; [| done].
    destruct (parseInt16 (sliceStr 4 6 _)) as [cb |]; [| done].
    csimpl. f_equal. apply rgbToLab_agree.
  - rewrite !slice_parse_upper.
    destruct (parseInt16 (sliceStr 0 2 _)) as [cr |]; [| done].
    destruct (parseInt16 (sliceStr 2 4 _)) as [cg |]; [| done].
    destruct (parseInt16 (sliceStr 4 6 _)) as [cb |]; [| done].
    csimpl. f_equal. apply rgbToLab_agree.
Qed.

(** X21.  The two matchers see the same colour: for digits [rest] without a
    [#], written with or without a leading [#], [hexToLab] of
    [services/color.ts] and [hexToLab] of [utils/colorMatch.ts] give the same
    Lab coordinates, and fail to parse on the same inputs. *)
Theorem both_matchers_share_lab (rest : string) :
  asciiOnly rest = true -> noHash rest = true ->
  Color.hexToLab rest = labTriple <$> ColorMatch.hexToLab rest /\
  Color.hexToLab (String "#"%char rest)
  = labTriple <$> ColorMatch.hexToLab (String "#"%char rest).
Proof.
  intros _ Hh. split.
  - apply (hexToLab_on_digits rest); [| by apply dropHash_noHash].
    unfold Color.normalizeHex at 1. by rewrite (noHash_start _ Hh).
  - by apply (hexToLab_on_digits rest).
Qed.

Lemma both_matchers_share_lab_witness :
  Color.hexToLab "5fb1c5"%string = labTriple <$> ColorMatch.hexToLab "5fb1c5"%string /\
  Color.hexToLab "#5fb1c5"%string = labTriple <$> ColorMatch.hexToLab "#5fb1c5"%string.
Proof. exact (both_matchers_share_lab "5fb1c5"%string eq_refl eq_refl). Defined.

End HexFacts.
